(** * nodejs-snippets: the libuv echo server and the native_wrap demo

    A shallow embedding of [src/echo_server/echo_server.cc] and of
    [src/native_wrap/{third_party,native_wrap}.cpp].

    The echo server is a set of libuv callbacks.  Each callback is
    embedded as a computation in a state-and-fault monad over a [world]
    that holds the C heap, the two file-level statics ([server_] and
    [loop_]), the write requests libuv has accepted, and the log of
    every library call the code makes.  What a libuv or libc call
    answers (the address [malloc] hands out, the status [uv_write]
    returns, ...) is an argument of the embedded function: the theorems
    quantify over every answer. *)

From Stdlib Require Import ZArith List String Lia.
From Stdlib.Strings Require Import Byte.
From Stdlib Require Import Floats.PrimFloat.
From stdpp Require Import gmap strings list.

Open Scope Z_scope.

(** ** Machine integers *)

(** Conversion to [int] (32 bits, two's complement), as when an
    [ssize_t] or an [int64_t] is passed where an [int] is expected. *)
Definition to_int (z : Z) : Z := (z + 2 ^ 31) mod 2 ^ 32 - 2 ^ 31.

(** Conversion to [unsigned int], the type of [uv_buf_init]'s [len]. *)
Definition to_uint (z : Z) : Z := z mod 2 ^ 32.

Definition size_max : Z := 2 ^ 64.

(** ** Pointers and heap objects *)

(** An address; [NULL] is [0]. *)
Abbreviation ptr := Z (only parsing).
Definition NULL : ptr := 0.

(** Addresses of the statics: [&server_] and what [uv_default_loop()]
    returns.  [malloc] never hands them out. *)
Definition addr_server_ : ptr := 1.
Definition uv_default_loop : ptr := 2.

Record uv_buf_t := { base : ptr; len : Z }.

(** [uv_buf_init(char* base, unsigned int len)]. *)
Definition uv_buf_init (b : ptr) (n : Z) : uv_buf_t :=
  {| base := b; len := to_uint n |}.

(** Life cycle of a [uv_tcp_t].  The source's note in [start] fixes when
    a handle holds a socket: not after [uv_tcp_init] alone, but from a
    successful [uv_tcp_bind] (or [uv_accept]) on, until [uv_close]. *)
Inductive hstatus :=
  Uninit | Initialised | Open | Listening | Reading | Closed.

Global Instance hstatus_eq_dec : EqDecision hstatus.
Proof. solve_decision. Defined.

Definition holds_socket (s : hstatus) : bool :=
  match s with Open | Listening | Reading => true | _ => false end.

(** What a [malloc]ed block holds.  [Buf cap data] is a read buffer of
    [cap] bytes of which the prefix [data] has been written; the fields
    of [WriteData] are those of [struct write_data] ([req.data] and
    [buf]). *)
Inductive obj :=
| Buf (cap : Z) (data : list byte)
| WriteData (req_data : ptr) (buf : uv_buf_t)
| Tcp (st : hstatus).

Global Instance byte_eq_dec : EqDecision byte := Byte.byte_eq_dec.
Global Instance uv_buf_t_eq_dec : EqDecision uv_buf_t.
Proof. solve_decision. Defined.
Global Instance obj_eq_dec : EqDecision obj.
Proof. solve_decision. Defined.

(** ** Library calls, as the code makes them *)

Inductive call :=
| Malloc (p : ptr)
| Free (p : ptr)
| UvTcpInit (loop h : ptr)
| UvIp4Addr (ip : string) (port : Z) (r : Z)
| UvTcpBind (h : ptr) (r : Z)
| UvListen (h : ptr) (backlog : Z) (r : Z)
| UvAccept (server client : ptr) (r : Z)
| UvReadStart (client : ptr) (r : Z)
| UvWrite (req stream : ptr) (payload : list byte) (r : Z)
| UvClose (h : ptr)
| Fprintf (prefix : string) (status : Z).

Record world := World {
  heap : gmap Z obj;          (* live malloc blocks *)
  server_ : hstatus;          (* static uv_tcp_t server_ *)
  loop_ : ptr;                (* static uv_loop_t *loop_ *)
  pending : list (ptr * ptr); (* (request, stream) of writes accepted by
                                 libuv whose write_cb has not run yet *)
  calls : list call           (* oldest first *)
}.

Definition initial : world :=
  World ∅ Uninit NULL [] [].

Definition set_heap (h : gmap Z obj) (w : world) : world :=
  World h (server_ w) (loop_ w) (pending w) (calls w).
Definition set_server_ (s : hstatus) (w : world) : world :=
  World (heap w) s (loop_ w) (pending w) (calls w).
Definition set_loop_ (l : ptr) (w : world) : world :=
  World (heap w) (server_ w) l (pending w) (calls w).
Definition set_pending (p : list (ptr * ptr)) (w : world) : world :=
  World (heap w) (server_ w) (loop_ w) p (calls w).
Definition log_call (c : call) (w : world) : world :=
  World (heap w) (server_ w) (loop_ w) (pending w) (calls w ++ [c]).

(** ** The monad: state, and the faults of C *)

Inductive fault :=
| InvalidFree (p : ptr)      (* free of a block that is not live *)
| BadPointer (p : ptr)       (* load or store through a dead or NULL pointer *)
| UninitRead (p : ptr)       (* bytes sent from beyond what was written *)
| BadHandle (h : ptr)        (* libuv call on a handle in the wrong state *)
| BadAlloc (p : ptr).        (* the allocator handed out a live address *)

Inductive result (A : Type) :=
| Ok (a : A) (w : world)
| Fault (f : fault).
Arguments Ok {A} a w.
Arguments Fault {A} f.

Definition M (A : Type) : Type := world -> result A.

Definition ret {A} (a : A) : M A := fun w => Ok a w.
Definition bind {A B} (m : M A) (k : A -> M B) : M B :=
  fun w => match m w with Ok a w' => k a w' | Fault f => Fault f end.
Definition throw {A} (f : fault) : M A := fun _ => Fault f.
Definition gets {A} (f : world -> A) : M A := fun w => Ok (f w) w.
Definition modify (f : world -> world) : M unit := fun w => Ok tt (f w).

Declare Scope m_scope.
Delimit Scope m_scope with M.
Notation "x <- c1 ;; c2" := (bind c1 (fun x => c2))
  (at level 100, c1 at next level, right associativity) : m_scope.
Notation "c1 ;; c2" := (bind c1 (fun _ => c2))
  (at level 100, right associativity) : m_scope.
Open Scope m_scope.

(** ** libc *)

Definition static_addr (p : ptr) : Prop :=
  p = NULL \/ p = addr_server_ \/ p = uv_default_loop.

Global Instance static_addr_dec p : Decision (static_addr p).
Proof. unfold static_addr. apply _. Defined.

(** [malloc]: [p] is the address the allocator answers, [NULL] when it
    fails; [o] is the shape the caller gives the block. *)
Definition malloc (p : ptr) (o : obj) : M ptr := fun w =>
  if decide (p = NULL) then Ok NULL (log_call (Malloc NULL) w)
  else if decide (static_addr p) then Fault (BadAlloc p)
  else match heap w !! p with
       | Some _ => Fault (BadAlloc p)
       | None => Ok p (log_call (Malloc p) (set_heap (<[p := o]> (heap w)) w))
       end.

(** [free]: a no-op on [NULL], a fault on anything not live. *)
Definition free (p : ptr) : M unit := fun w =>
  if decide (p = NULL) then Ok tt w
  else match heap w !! p with
       | Some _ => Ok tt (log_call (Free p) (set_heap (delete p (heap w)) w))
       | None => Fault (InvalidFree p)
       end.

(** [fprintf(stderr, "%s: %s.\n", prefix, uv_strerror(status))]. *)
Definition error (prefix : string) (status : Z) : M unit :=
  modify (log_call (Fprintf prefix status)).

(** ** Loads and stores on [struct write_data] *)

Definition load_write_data (wd : ptr) : M (ptr * uv_buf_t) := fun w =>
  match heap w !! wd with
  | Some (WriteData d b) => Ok (d, b) w
  | _ => Fault (BadPointer wd)
  end.

Definition store_req_data (wd : ptr) (d : ptr) : M unit := fun w =>
  match heap w !! wd with
  | Some (WriteData _ b) => Ok tt (set_heap (<[wd := WriteData d b]> (heap w)) w)
  | _ => Fault (BadPointer wd)
  end.

Definition store_buf (wd : ptr) (b : uv_buf_t) : M unit := fun w =>
  match heap w !! wd with
  | Some (WriteData d _) => Ok tt (set_heap (<[wd := WriteData d b]> (heap w)) w)
  | _ => Fault (BadPointer wd)
  end.

(** ** libuv

    libuv is not part of the repository.  Each call the source makes is
    a function of the world that records the call and returns the
    status given as its first argument; what it does to a handle
    follows the source's own comments.  The two error codes are the
    values of libuv's header ([UV__EOF], [UV__ENOBUFS]); the proofs use
    only that they are negative and distinct. *)

Definition UV_EOF : Z := -4095.
Definition UV_ENOBUFS : Z := -105.

Definition handle_status (h : ptr) (w : world) : option hstatus :=
  if decide (h = addr_server_) then Some (server_ w)
  else match heap w !! h with Some (Tcp s) => Some s | _ => None end.

Definition set_handle_status (h : ptr) (s : hstatus) (w : world) : world :=
  if decide (h = addr_server_) then set_server_ s w
  else set_heap (<[h := Tcp s]> (heap w)) w.

(** [uv_tcp_init]: never on a handle that still holds a socket.  The
    call itself answers on any other handle, also on one that was
    initialised before. *)
Definition uv_tcp_init (loop h : ptr) : M unit := fun w =>
  match handle_status h w with
  | Some s =>
      if holds_socket s then Fault (BadHandle h)
      else Ok tt (log_call (UvTcpInit loop h) (set_handle_status h Initialised w))
  | None => Fault (BadPointer h)
  end.

Definition uv_ip4_addr (r : Z) (ip : string) (port : Z) : M Z := fun w =>
  Ok r (log_call (UvIp4Addr ip port r) w).

(** [uv_tcp_bind]: a handle is taken to hold a socket from a successful
    bind on (the source's note); a failed bind leaves its state as it
    was. *)
Definition uv_tcp_bind (r : Z) (h : ptr) : M Z := fun w =>
  match handle_status h w with
  | Some Initialised =>
      Ok r (log_call (UvTcpBind h r)
              (if decide (r = 0) then set_handle_status h Open w else w))
  | _ => Fault (BadHandle h)
  end.

Definition uv_listen (r : Z) (h : ptr) (backlog : Z) : M Z := fun w =>
  match handle_status h w with
  | Some Open =>
      Ok r (log_call (UvListen h backlog r)
              (if decide (r = 0) then set_handle_status h Listening w else w))
  | _ => Fault (BadHandle h)
  end.

Definition uv_accept (r : Z) (server client : ptr) : M Z := fun w =>
  match handle_status server w, handle_status client w with
  | Some Listening, Some Initialised =>
      Ok r (log_call (UvAccept server client r)
              (if decide (r = 0) then set_handle_status client Open w else w))
  | Some Listening, _ => Fault (BadHandle client)
  | _, _ => Fault (BadHandle server)
  end.

Definition uv_read_start (r : Z) (client : ptr) : M Z := fun w =>
  match handle_status client w with
  | Some Open =>
      Ok r (log_call (UvReadStart client r)
              (if decide (r = 0) then set_handle_status client Reading w else w))
  | _ => Fault (BadHandle client)
  end.

(** [uv_close]: the request to close.  The handle takes no further
    call; what the loop still does with it is [uv__finish_close],
    below. *)
Definition uv_close (h : ptr) : M unit := fun w =>
  match handle_status h w with
  | Some Uninit | Some Closed | None => Fault (BadHandle h)
  | Some _ => Ok tt (log_call (UvClose h) (set_handle_status h Closed w))
  end.

(** [uv_write(req, stream, bufs, 1, cb)]: the payload is the [len] bytes
    at [base]; with answer [0] the request is pending until libuv calls
    [cb]. *)
Definition uv_write (r : Z) (req stream : ptr) (b : uv_buf_t) : M Z := fun w =>
  match handle_status stream w with
  | Some Open | Some Reading =>
      match heap w !! base b with
      | Some (Buf _ data) =>
          if decide (len b <= Z.of_nat (length data)) then
            Ok r (log_call (UvWrite req stream (take (Z.to_nat (len b)) data) r)
                    (if decide (r = 0)
                     then set_pending (pending w ++ [(req, stream)]) w
                     else w))
          else Fault (UninitRead (base b))
      | _ => Fault (BadPointer (base b))
      end
  | _ => Fault (BadHandle stream)
  end.

(** ** echo_server.cc *)

(** [alloc_cb]: [p] is what [malloc(suggested_size)] answers. *)
Definition alloc_cb (p : ptr) (handle : ptr) (suggested_size : Z)
  : M uv_buf_t :=
  b <- malloc p (Buf suggested_size []) ;;
  ret (uv_buf_init b suggested_size).

Definition free_write_data (wd : ptr) : M unit :=
  f <- load_write_data wd ;;
  free (base (snd f)) ;;
  free wd.

Definition write_cb (req : ptr) (status : Z) : M unit :=
  f <- load_write_data req ;;
  let wd := fst f in
  free_write_data wd ;;
  if decide (status ≠ 0) then error "Error on writing client stream" status
  else ret tt.

Definition close_and_free (client : ptr) : M unit :=
  uv_close client ;;
  free client.

(** [read_cb]: [wd_p] is what [malloc(sizeof(write_data))] answers and
    [r_write] what [uv_write] returns, when they are called.  The local
    [in_data] is threaded through the branches, which return its value
    at the join. *)
Definition read_cb (wd_p : ptr) (r_write : Z)
    (stream : ptr) (nread : Z) (in_buf : uv_buf_t) : M unit :=
  let in_data := base in_buf in
  in_data <-
    (if decide (nread > 0) then
       wd <- malloc wd_p (WriteData NULL (Build_uv_buf_t NULL 0)) ;;
       store_req_data wd wd ;;
       store_buf wd (uv_buf_init in_data nread) ;;
       let in_data := NULL in
       f <- load_write_data wd ;;
       r <- uv_write r_write wd stream (snd f) ;;
       (if decide (r = 0) then ret tt
        else free_write_data wd ;;
             error "Error on writing client stream" r) ;;
       ret in_data
     else if decide (nread < 0) then
       (if decide (nread ≠ UV_EOF)
        then error "Error on reading client stream" (to_int nread)
        else ret tt) ;;
       close_and_free stream ;;
       ret in_data
     else ret in_data) ;;
  if decide (in_data ≠ NULL) then free in_data else ret tt.

(** [connection_cb]: [client_p] is what [malloc(sizeof(uv_tcp_t))]
    answers, [r_accept] and [r_read_start] what the two libuv calls
    return. *)
Definition connection_cb (client_p : ptr) (r_accept r_read_start : Z)
    (server : ptr) (status : Z) : M unit :=
  if decide (status < 0) then error "Error on listening" status
  else
    client <- malloc client_p (Tcp Uninit) ;;
    lp <- gets loop_ ;;
    uv_tcp_init lp client ;;
    r <- uv_accept r_accept server client ;;
    if decide (r = 0) then
      r <- uv_read_start r_read_start client ;;
      if decide (r = 0) then ret tt
      else close_and_free client ;;
           error "Error on reading client stream" r
    else
      free client ;;
      error "Error on accepting client connection" r.

(** The arguments [start] receives from JavaScript.  A number carries
    what [IntegerValue()] gives for it (an [int64_t]). *)
Inductive jsval :=
| JsUndefined
| JsNumber (integer_value : Z)
| JsString (s : string)
| JsObject.

Definition IsNumber (v : jsval) : bool :=
  match v with JsNumber _ => true | _ => false end.
Definition IntegerValue (v : jsval) : Z :=
  match v with JsNumber z => z | _ => 0 end.

(** How the call returns to JavaScript: normally, or with a pending
    [TypeError] carrying a message. *)
Inductive completion := Returned | Threw (msg : string).

Definition start (r_ip4 r_bind r_listen : Z) (args : list jsval)
  : M completion :=
  match args with
  | [arg0] =>
      if negb (IsNumber arg0) then ret (Threw "Wrong arguments")
      else
        lp <- gets loop_ ;;
        if decide (lp ≠ NULL) then ret (Threw "Already started")
        else
          let port := to_int (IntegerValue arg0) in
          let loop := uv_default_loop in
          r <- uv_ip4_addr r_ip4 "127.0.0.1" port ;;
          r <- (if decide (r = 0) then
                  uv_tcp_init loop addr_server_ ;;
                  r <- uv_tcp_bind r_bind addr_server_ ;;
                  if decide (r = 0) then
                    r <- uv_listen r_listen addr_server_ 0 ;;
                    (if decide (r = 0) then modify (set_loop_ loop)
                     else uv_close addr_server_ ;;
                          error "Error on listening" r) ;;
                    ret r
                  else error "Error on binding" r ;; ret r
                else error "Error on parsing address" r ;; ret r) ;;
          if decide (r ≠ 0) then ret (Threw "Failed to start")
          else ret Returned
  | _ => ret (Threw "Wrong number of arguments")
  end.

(** ** The event loop

    What the host and libuv do to the module: JavaScript calls [start];
    libuv calls [connection_cb] on the listening handle, [alloc_cb]
    then [read_cb] on a handle that is reading, and [write_cb] on a
    pending write request. *)

(** What a read attempt finds: bytes, or a status ([0] for nothing to
    read now, negative for an error or [UV_EOF]). *)
Inductive rx := RxData (bs : list byte) | RxStatus (code : Z).

Inductive event :=
| EvStart (args : list jsval) (r_ip4 r_bind r_listen : Z)
| EvConnection (status : Z) (client_p : ptr) (r_accept r_read_start : Z)
| EvRead (stream : ptr) (suggested_size : Z) (buf_p : ptr) (input : rx)
         (wd_p : ptr) (r_write : Z)
| EvWritten (req : ptr) (status : Z).

(** libuv's read step between [alloc_cb] and [read_cb]: without a
    buffer it reports [UV_ENOBUFS]; otherwise the bytes received are
    stored at the front of the buffer and their count is reported. *)
Definition uv_read (b : uv_buf_t) (input : rx) : M Z := fun w =>
  if decide (base b = NULL \/ len b = 0) then Ok UV_ENOBUFS w
  else match input with
       | RxStatus c => Ok c w
       | RxData bs =>
           match heap w !! base b with
           | Some (Buf cap _) =>
               Ok (Z.of_nat (length bs))
                  (set_heap (<[base b := Buf cap bs]> (heap w)) w)
           | _ => Fault (BadPointer (base b))
           end
       end.

Definition remove_pending (req : ptr) : M unit :=
  modify (fun w =>
    set_pending (filter (fun e => fst e ≠ req) (pending w)) w).

Definition dispatch (ev : event) : M unit :=
  match ev with
  | EvStart args r_ip4 r_bind r_listen =>
      start r_ip4 r_bind r_listen args ;; ret tt
  | EvConnection status client_p r_accept r_read_start =>
      connection_cb client_p r_accept r_read_start addr_server_ status
  | EvRead stream suggested_size buf_p input wd_p r_write =>
      b <- alloc_cb buf_p stream suggested_size ;;
      nread <- uv_read b input ;;
      read_cb wd_p r_write stream nread b
  | EvWritten req status =>
      remove_pending req ;;
      write_cb req status
  end.

(** A handle allocated by [connection_cb], in a given state. *)
Definition live_handle (w : world) (h : ptr) (st : hstatus) : Prop :=
  ¬ static_addr h ∧ heap w !! h = Some (Tcp st).

(** A read buffer as [alloc_cb] leaves it: [NULL], or a live block. *)
Definition live_buf (w : world) (p : ptr) (cap : Z) (data : list byte) : Prop :=
  p ≠ NULL ∧ heap w !! p = Some (Buf cap data).

Global Instance live_handle_dec w h st : Decision (live_handle w h st).
Proof. unfold live_handle. apply _. Defined.
Global Instance live_buf_dec w p cap data : Decision (live_buf w p cap data).
Proof. unfold live_buf. apply _. Defined.

(** An address [malloc] may answer with: not a static, not live. *)
Definition fresh (w : world) (p : ptr) : Prop :=
  ¬ static_addr p ∧ heap w !! p = None.

(** The events libuv and the host can deliver in world [w].  Reads
    come on handles being read; the read buffer may fail to allocate
    ([buf_p = NULL], the case [alloc_cb] and [read_cb] provide for),
    whereas the [write_data] and [uv_tcp_t] allocations answer a fresh
    address: the source uses them unchecked (what happens when they
    fail is stated apart).  Data fits the buffer length libuv was
    given; a status is zero or negative.  The completion of a write is
    delivered whatever became of its connection: what the loop does
    with a handle that was closed is the matter of [turn], below. *)
Definition admissible (w : world) (ev : event) : Prop :=
  match ev with
  | EvStart _ _ _ _ => True
  | EvConnection status client_p _ _ =>
      server_ w = Listening ∧ fresh w client_p
  | EvRead stream suggested_size buf_p input wd_p _ =>
      live_handle w stream Reading ∧
      0 <= suggested_size < size_max ∧
      (buf_p = NULL ∨ fresh w buf_p) ∧
      fresh w wd_p ∧ wd_p ≠ buf_p ∧
      match input with
      | RxData bs =>
          buf_p ≠ NULL ∧ bs ≠ [] ∧
          Z.of_nat (length bs) <= to_uint suggested_size
      | RxStatus c => c <= 0
      end
  | EvWritten req status => req ∈ (pending w).*1
  end.

Global Instance fresh_dec w p : Decision (fresh w p).
Proof. unfold fresh. apply _. Defined.

Global Instance admissible_dec w ev : Decision (admissible w ev).
Proof. destruct ev as [| | ? ? ? [] ? ? |]; simpl; apply _. Defined.

(** Running a list of events, stopping at the first fault. *)
Fixpoint run (evs : list event) : M unit :=
  match evs with
  | [] => ret tt
  | ev :: evs' => dispatch ev ;; run evs'
  end.

(** A run in which every event is admissible when it is delivered. *)
Fixpoint admissible_run (w : world) (evs : list event) : Prop :=
  match evs with
  | [] => True
  | ev :: evs' =>
      admissible w ev ∧
      match dispatch ev w with
      | Ok _ w1 => admissible_run w1 evs'
      | Fault _ => True
      end
  end.

Global Instance admissible_run_dec evs :
  ∀ w, Decision (admissible_run w evs).
Proof.
  induction evs as [|ev evs IH]; intros w; simpl; [apply _|].
  destruct (dispatch ev w); apply _.
Defined.

(** ** Reading the log *)

(** Payloads handed to [uv_write] for stream [s], oldest first. *)
Fixpoint writes_on (s : ptr) (cs : list call) : list (list byte) :=
  match cs with
  | [] => []
  | UvWrite _ s' payload _ :: cs' =>
      if decide (s' = s) then payload :: writes_on s cs' else writes_on s cs'
  | _ :: cs' => writes_on s cs'
  end.

(** Chunks of bytes the events deliver to stream [s], oldest first. *)
Fixpoint chunks (s : ptr) (evs : list event) : list (list byte) :=
  match evs with
  | [] => []
  | EvRead s' _ _ (RxData bs) _ _ :: evs' =>
      if decide (s' = s) then bs :: chunks s evs' else chunks s evs'
  | _ :: evs' => chunks s evs'
  end.

Definition is_free (p : ptr) (c : call) : bool :=
  match c with Free q => bool_decide (q = p) | _ => false end.
Definition is_close (h : ptr) (c : call) : bool :=
  match c with UvClose q => bool_decide (q = h) | _ => false end.
Definition is_write (c : call) : bool :=
  match c with UvWrite _ _ _ _ => true | _ => false end.
Definition is_fprintf (c : call) : bool :=
  match c with Fprintf _ _ => true | _ => false end.

(** How many calls of a list satisfy a test. *)
Definition count (f : call -> bool) (cs : list call) : nat :=
  length (List.filter f cs).

(** What [free(p)] does to the heap and adds to the log. *)
Definition release (p : ptr) (h : gmap Z obj) : gmap Z obj :=
  if decide (p = NULL) then h else delete p h.
Definition release_log (p : ptr) : list call :=
  if decide (p = NULL) then [] else [Free p].

(** What the negative branch of [read_cb] logs. *)
Definition read_error_log (nread : Z) : list call :=
  if decide (nread ≠ UV_EOF)
  then [Fprintf "Error on reading client stream" (to_int nread)] else [].

(** What [write_cb] logs. *)
Definition write_error_log (status : Z) : list call :=
  if decide (status ≠ 0)
  then [Fprintf "Error on writing client stream" status] else [].

(** The byte count [read_cb] gets when the read attempt found a status:
    libuv reports [UV_ENOBUFS] when [alloc_cb] left no usable buffer. *)
Definition status_nread (ss : Z) (buf_p : ptr) (c : Z) : Z :=
  if decide (buf_p = NULL ∨ to_uint ss = 0) then UV_ENOBUFS else c.

Definition is_data (input : rx) : bool :=
  match input with RxData _ => true | RxStatus _ => false end.

(** Whether handling [ev] in [w] meets a failure the code reports: a
    libuv call of [start] that fails (the first one decides; none is
    made on bad arguments or when already started), an error status or
    a failed accept or read-start in [connection_cb], a refused
    [uv_write], a negative byte count other than [UV_EOF], a write
    completed with an error. *)
Definition failed (w : world) (ev : event) : bool :=
  match ev with
  | EvStart args r_ip4 r_bind r_listen =>
      match args with
      | [JsNumber _] =>
          bool_decide (loop_ w = NULL)
          && negb (bool_decide (r_ip4 = 0 ∧ r_bind = 0 ∧ r_listen = 0))
      | _ => false
      end
  | EvConnection status _ r_accept r_read_start =>
      negb (bool_decide (0 <= status ∧ r_accept = 0 ∧ r_read_start = 0))
  | EvRead _ ss buf_p (RxData _) _ r_write => negb (bool_decide (r_write = 0))
  | EvRead _ ss buf_p (RxStatus c) _ _ =>
      bool_decide (status_nread ss buf_p c < 0)
      && negb (bool_decide (status_nread ss buf_p c = UV_EOF))
  | EvWritten _ status => negb (bool_decide (status = 0))
  end.

(** How many events of a run meet a failure, each judged in the world
    it is delivered in. *)
Fixpoint failures (w : world) (evs : list event) : nat :=
  match evs with
  | [] => 0
  | ev :: evs' =>
      ((if failed w ev then 1 else 0)
       + match dispatch ev w with
         | Ok _ w1 => failures w1 evs'
         | Fault _ => 0
         end)%nat
  end.

(** Whether [ev] is a read completion on the connection [s]. *)
Definition reads_on (ev : event) (s : ptr) : Prop :=
  match ev with EvRead s' _ _ _ _ _ => s' = s | _ => False end.

(** Payloads of the writes on stream [s] that libuv accepted
    ([uv_write] answered [0]), oldest first: the bytes on their way
    back to the peer.  A refused write sends nothing. *)
Fixpoint echoed (s : ptr) (cs : list call) : list (list byte) :=
  match cs with
  | [] => []
  | UvWrite _ s' payload r :: cs' =>
      if decide (s' = s ∧ r = 0) then payload :: echoed s cs'
      else echoed s cs'
  | _ :: cs' => echoed s cs'
  end.

(** Chunks the events deliver to stream [s] for which [uv_write]
    answers [0], oldest first. *)
Fixpoint chunks_accepted (s : ptr) (evs : list event) : list (list byte) :=
  match evs with
  | [] => []
  | EvRead s' _ _ (RxData bs) _ r :: evs' =>
      if decide (s' = s ∧ r = 0) then bs :: chunks_accepted s evs'
      else chunks_accepted s evs'
  | _ :: evs' => chunks_accepted s evs'
  end.

(** Whether [uv_write] refuses a chunk read from [s] in these events. *)
Definition refused_on (s : ptr) (ev : event) : Prop :=
  match ev with
  | EvRead s' _ _ (RxData _) _ r => s' = s ∧ r ≠ 0
  | _ => False
  end.

(** ** What libuv does with a handle after [uv_close]

    [uv_close] only asks for the close: the handle stays with the
    loop, which finishes the close (libuv's [uv__finish_close]) after
    the callback that asked for it has returned, and reads and writes
    the handle while doing so.  The memory of the handle has to stay
    valid until then. *)

(** The handles a list of calls asked libuv to close, oldest first. *)
Fixpoint closing (cs : list call) : list ptr :=
  match cs with
  | [] => []
  | UvClose h :: cs' => h :: closing cs'
  | _ :: cs' => closing cs'
  end.

(** Finishing a close goes through the handle. *)
Definition uv__finish_close (h : ptr) : M unit := fun w =>
  match handle_status h w with
  | Some _ => Ok tt w
  | None => Fault (BadPointer h)
  end.

Fixpoint finish_closes (hs : list ptr) : M unit :=
  match hs with
  | [] => ret tt
  | h :: hs' => uv__finish_close h ;; finish_closes hs'
  end.

(** One turn of the loop: the callback for the event, then the end of
    the closes the callback asked for.  A call of [start] counts as a
    turn of its own. *)
Definition turn (ev : event) : M unit := fun w =>
  match dispatch ev w with
  | Ok _ w' => finish_closes (closing (drop (length (calls w)) (calls w'))) w'
  | Fault f => Fault f
  end.

Fixpoint turns (evs : list event) : M unit :=
  match evs with
  | [] => ret tt
  | ev :: evs' => turn ev ;; turns evs'
  end.

(** Events after which no handle is left to close and no handle is
    initialised twice: [uv_tcp_bind], [uv_listen], [uv_accept] and
    [uv_read_start] succeed when they are called, and no read ends
    with an error or the end of the stream. *)
Definition quiet (ev : event) : Prop :=
  match ev with
  | EvStart _ _ r_bind r_listen => r_bind = 0 ∧ r_listen = 0
  | EvConnection status _ r_accept r_read_start =>
      status < 0 ∨ (r_accept = 0 ∧ r_read_start = 0)
  | EvRead _ _ _ (RxData _) _ _ => True
  | EvRead _ ss buf_p (RxStatus c) _ _ => status_nread ss buf_p c = 0
  | EvWritten _ _ => True
  end.

Global Instance quiet_dec ev : Decision (quiet ev).
Proof. destruct ev as [| | ? ? ? [] ? ? |]; simpl; apply _. Defined.

Global Instance refused_on_dec s ev : Decision (refused_on s ev).
Proof. destruct ev as [| | ? ? ? [] ? ? |]; simpl; apply _. Defined.

(** ** The ownership invariant

    Between two callbacks: every live read buffer belongs to exactly one
    pending write request, every live [write_data] is a pending request,
    every live handle is a connection being read, and [loop_] is set
    exactly when [server_] listens. *)
Record wf (w : world) : Prop := {
  wf_static : ∀ p o, heap w !! p = Some o -> ¬ static_addr p;
  wf_nodup : NoDup (pending w).*1;
  wf_pending : ∀ req, req ∈ (pending w).*1 ->
      ∃ b cap data, heap w !! req = Some (WriteData req b)
                    ∧ heap w !! base b = Some (Buf cap data);
  wf_buf : ∀ p cap data, heap w !! p = Some (Buf cap data) ->
      ∃ req b, heap w !! req = Some (WriteData req b) ∧ base b = p;
  wf_wd : ∀ p d b, heap w !! p = Some (WriteData d b) -> p ∈ (pending w).*1;
  wf_owner : ∀ r1 r2 d1 d2 b1 b2,
      heap w !! r1 = Some (WriteData d1 b1) ->
      heap w !! r2 = Some (WriteData d2 b2) ->
      base b1 = base b2 -> r1 = r2;
  wf_tcp : ∀ h st, heap w !! h = Some (Tcp st) -> st = Reading;
  wf_listener : (server_ w = Listening ∧ loop_ w ≠ NULL)
                ∨ (holds_socket (server_ w) = false ∧ loop_ w = NULL)
}.

(** The world a list of events leads to from the initial one. *)
Definition world_after (evs : list event) : world :=
  match run evs initial with Ok _ w => w | Fault _ => initial end.

(** A session: start, two clients connect, their chunks interleave,
    writes complete, the first client closes. *)
Definition session : list event :=
  [ EvStart [JsNumber 7000] 0 0 0;
    EvConnection 0 100 0 0;
    EvConnection 0 101 0 0;
    EvRead 100 65536 200 (RxData ["h"%byte; "e"%byte]) 300 0;
    EvRead 101 65536 201 (RxData ["X"%byte]) 301 0;
    EvRead 100 65536 202 (RxData ["y"%byte]) 302 0;
    EvWritten 300 0;
    EvRead 100 65536 200 (RxStatus 0) 300 0;
    EvWritten 302 0;
    EvRead 100 65536 200 (RxStatus UV_EOF) 300 0;
    EvWritten 301 (-32) ].

(** After [start(7000)] succeeded. *)
Definition listening : world := world_after [EvStart [JsNumber 7000] 0 0 0].

(** After one client, at address 100, was accepted as well. *)
Definition connected : world :=
  world_after [EvStart [JsNumber 7000] 0 0 0; EvConnection 0 100 0 0].

(** A world with a write pending on the connection at 100. *)
Definition echoing : world :=
  world_after [EvStart [JsNumber 7000] 0 0 0; EvConnection 0 100 0 0;
               EvRead 100 65536 200 (RxData ["a"%byte]) 300 0].

(** * native_wrap: a third-party object behind a V8 handle *)

(** ** third_party.cpp *)
Module third_party.

(** [class Object { double value_; }], by address ([handle_t]). *)
Record Object := { value_ : float }.

Definition objects := gmap Z Object.

(** [Object::PlusOne]: [return ++value_;] on a [double]. *)
Definition Object_PlusOne (o : Object) : float * Object :=
  let v := PrimFloat.add (value_ o) 1%float in
  (v, {| value_ := v |}).

(** [create]: [p] is the address [new] answers. *)
Definition create (p : ptr) (value : float) (os : objects) : ptr * objects :=
  (p, <[p := {| value_ := value |}]> os).

Definition destroy (handle : ptr) (os : objects) : objects :=
  delete handle os.

(** [plus_one]: nothing is returned for a handle that is not live. *)
Definition plus_one (handle : ptr) (os : objects) : option (float * objects) :=
  match os !! handle with
  | Some o =>
      let r := Object_PlusOne o in
      Some (r.1, <[handle := r.2]> os)
  | None => None
  end.

End third_party.

(** ** native_wrap.cpp *)
Module native_wrap.

(** A V8 object made from the template: its prototype and its two
    internal fields (0: the tracker, 1: the third-party handle). *)
Record v8_object := {
  prototype_of : ptr;
  internal_field_0 : ptr;
  internal_field_1 : ptr
}.

(** [Tracker]: the [ObjectWrap] that destroys [obj_] when collected. *)
Record Tracker := { obj_ : ptr }.

Record isolate := Isolate {
  natives : third_party.objects;
  v8_heap : gmap Z v8_object;
  trackers : gmap Z Tracker
}.

(** The prototype [Init] records in [ThirdParty::prototype]. *)
Definition prototype : ptr := 7.

(** The JavaScript values a script can pass.  [ObjectRef] is an object
    of the isolate, by address.  [Symbol] stands for a primitive that
    has no number value (a symbol or a BigInt: converting it throws).
    [Forged] is an object the script made itself with [ThirdParty]'s
    prototype ([Object.create(Object.getPrototypeOf(obj))]): it does
    not come from the template and has no internal fields. *)
Inductive value :=
| Undefined
| Number (d : float)
| ObjectRef (addr : ptr)
| Symbol
| Forged.

Inductive outcome (A : Type) :=
| Return (a : A) (i : isolate)
| Throw (msg : string) (i : isolate)
| Crash.
Arguments Return {A} a i.
Arguments Throw {A} msg i.
Arguments Crash {A}.

(** [ThirdParty::NewInstance]: [obj_p], [handle_p] and [tracker_p] are
    the addresses of the new third-party object, V8 object and
    tracker. *)
Definition NewInstance (obj_p handle_p tracker_p : ptr) (v : float)
    (i : isolate) : ptr * isolate :=
  let '(obj, os) := third_party.create obj_p v (natives i) in
  let o := {| prototype_of := prototype;
              internal_field_0 := tracker_p;
              internal_field_1 := obj |} in
  (handle_p,
   Isolate os (<[handle_p := o]> (v8_heap i))
           (<[tracker_p := {| obj_ := obj |}]> (trackers i))).

Definition Unwrap (handle : v8_object) : ptr := internal_field_1 handle.

(** [ThirdParty::PlusOne(v8::Local<v8::Object>&)]. *)
Definition ThirdParty_PlusOne (handle : v8_object) (i : isolate)
  : outcome float :=
  match third_party.plus_one (Unwrap handle) (natives i) with
  | Some (r, os) => Return r (Isolate os (v8_heap i) (trackers i))
  | None => Crash
  end.

(** [Tracker::~Tracker], run when V8 collects the object the tracker
    wraps: the third-party object is destroyed. *)
Definition Tracker_finalize (tracker_p : ptr) (i : isolate) : isolate :=
  match trackers i !! tracker_p with
  | Some t =>
      Isolate (third_party.destroy (obj_ t) (natives i)) (v8_heap i)
              (delete tracker_p (trackers i))
  | None => i
  end.

(** [ToObject]: a [MaybeLocal], empty for [undefined]; a number or a
    symbol is boxed in an object whose prototype is not
    [ThirdParty]'s.  An object without internal fields is given the
    fields [NULL]: what [GetAlignedPointerFromInternalField] finds
    there is no third-party object. *)
Definition Number_prototype : ptr := 8.
Definition Symbol_prototype : ptr := 9.

Definition ToObject (a : value) (i : isolate) : option v8_object :=
  match a with
  | Undefined => None
  | Number _ =>
      Some {| prototype_of := Number_prototype;
              internal_field_0 := NULL; internal_field_1 := NULL |}
  | ObjectRef addr => v8_heap i !! addr
  | Symbol =>
      Some {| prototype_of := Symbol_prototype;
              internal_field_0 := NULL; internal_field_1 := NULL |}
  | Forged =>
      Some {| prototype_of := prototype;
              internal_field_0 := NULL; internal_field_1 := NULL |}
  end.

(** [ThirdParty::IsInstanceOrThrow]: the handle when its prototype is
    the recorded one, a [TypeError] otherwise. *)
Definition IsInstanceOrThrow (maybe_handle : option v8_object) (i : isolate)
  : outcome v8_object :=
  match maybe_handle with
  | Some handle =>
      if decide (prototype_of handle = prototype) then Return handle i
      else Throw "<this> is not a ThirdParty" i
  | None => Throw "<this> is not a ThirdParty" i
  end.

(** [NumberValue(context)]: a [Maybe<double>], empty when the
    conversion throws.  An object converts through its own [valueOf]
    and [toString], which are script code: the model gives the answer
    of the default ones, [NaN]. *)
Definition NumberValue (a : value) : option float :=
  match a with
  | Number d => Some d
  | Undefined | ObjectRef _ | Forged => Some PrimFloat.nan
  | Symbol => None
  end.

(** [CreateObject]: the initial value is [0] for [undefined] (also
    when no argument is given), else the argument's number value;
    [ToChecked()] on an empty [Maybe] aborts the process. *)
Definition CreateObject (obj_p handle_p tracker_p : ptr)
    (args : list value) (i : isolate) : outcome value :=
  let arg0 := match args with a :: _ => a | [] => Undefined end in
  let value := match arg0 with
               | Undefined => Some 0%float
               | _ => NumberValue arg0
               end in
  match value with
  | Some v =>
      let '(h, i') := NewInstance obj_p handle_p tracker_p v i in
      Return (ObjectRef h) i'
  | None => Crash
  end.

(** The exported [plusOne(obj)]. *)
Definition PlusOne (args : list value) (i : isolate) : outcome float :=
  match args with
  | [a] =>
      match IsInstanceOrThrow (ToObject a i) i with
      | Return handle i => ThirdParty_PlusOne handle i
      | Throw msg i => Throw msg i
      | Crash => Crash
      end
  | _ => Throw "Wrong number of arguments" i
  end.

(** The method [obj.plusOne()] set on the prototype by
    [NODE_SET_PROTOTYPE_METHOD], which gives it the template as
    signature: V8 answers a receiver that does not come from the
    template with a [TypeError] before the callback runs.  The
    callback itself reads the holder's internal field without a
    check. *)
Definition Method_PlusOne (holder : ptr) (i : isolate) : outcome float :=
  match v8_heap i !! holder with
  | Some this_handle => ThirdParty_PlusOne this_handle i
  | None => Throw "Illegal invocation" i
  end.

(** The results of [k] successive calls [plusOne(obj)]. *)
Fixpoint plusOne_calls (k : nat) (obj : value) (i : isolate)
  : option (list float * isolate) :=
  match k with
  | O => Some ([], i)
  | S k' =>
      match PlusOne [obj] i with
      | Return r i' =>
          match plusOne_calls k' obj i' with
          | Some (rs, i'') => Some (r :: rs, i'')
          | None => None
          end
      | _ => None
      end
  end.

(** One increment in binary64. *)
Definition incr (x : float) : float := PrimFloat.add x 1%float.

Definition empty_isolate : isolate := Isolate ∅ ∅ ∅.

(** ** Garbage collection and the life of a wrapped object *)

(** What V8 does when it collects the object at [handle_p]: the weak
    callback set up by [ObjectWrap::Wrap] deletes the tracker kept in
    internal field 0, and [~Tracker] destroys the third-party object
    [obj_].  Deleting a tracker, or destroying a third-party object,
    that is not live crashes. *)
Definition collect (handle_p : ptr) (i : isolate) : outcome unit :=
  match v8_heap i !! handle_p with
  | Some o =>
      match trackers i !! internal_field_0 o with
      | Some t =>
          match natives i !! obj_ t with
          | Some _ =>
              let i' := Tracker_finalize (internal_field_0 o) i in
              Return tt (Isolate (natives i') (delete handle_p (v8_heap i'))
                                 (trackers i'))
          | None => Crash
          end
      | None => Crash
      end
  | None => Return tt i
  end.

(** What a script can make the module do: call [createObject] (the
    three addresses are those the allocations answer), call
    [plusOne] with any arguments, call the method [plusOne] of an
    instance, and drop the last reference to an instance, which lets
    V8 collect it. *)
Inductive op :=
| OpCreateObject (obj_p handle_p tracker_p : ptr) (args : list value)
| OpPlusOne (args : list value)
| OpMethod (holder : ptr)
| OpCollect (handle_p : ptr).

(** The isolate a call leaves, if it did not crash (an exception is
    caught by the script). *)
Definition after {A} (r : outcome A) : option isolate :=
  match r with
  | Return _ i | Throw _ i => Some i
  | Crash => None
  end.

Definition perform (o : op) (i : isolate) : option isolate :=
  match o with
  | OpCreateObject obj_p handle_p tracker_p args =>
      after (CreateObject obj_p handle_p tracker_p args i)
  | OpPlusOne args => after (PlusOne args i)
  | OpMethod holder => after (Method_PlusOne holder i)
  | OpCollect handle_p => after (collect handle_p i)
  end.

(** The arguments of [createObject] whose conversion to a number is
    settled by the value alone: none, [undefined], or a number. *)
Definition plain_number (args : list value) : Prop :=
  match args with
  | [] | Undefined :: _ | Number _ :: _ => True
  | _ => False
  end.

Global Instance plain_number_dec args : Decision (plain_number args).
Proof. destruct args as [|[] ?]; simpl; apply _. Defined.

(** Whether [plusOne] is given a forged object as its one argument. *)
Definition forged_alone (args : list value) : bool :=
  match args with [Forged] => true | _ => false end.

(** The operations considered in [i].  Allocations answer addresses
    that are not in use, and never [NULL]; [createObject] gets a plain
    number; [plusOne] gets anything but a forged object alone; the
    method is called on, and the collector takes, objects that
    exist. *)
Definition possible (i : isolate) (o : op) : Prop :=
  match o with
  | OpCreateObject obj_p handle_p tracker_p args =>
      obj_p ≠ NULL ∧
      natives i !! obj_p = None ∧ v8_heap i !! handle_p = None ∧
      trackers i !! tracker_p = None ∧ plain_number args
  | OpPlusOne args => forged_alone args = false
  | OpMethod holder => is_Some (v8_heap i !! holder)
  | OpCollect handle_p => is_Some (v8_heap i !! handle_p)
  end.

Global Instance possible_dec i o : Decision (possible i o).
Proof. destruct o; simpl; apply _. Defined.

Fixpoint perform_all (os : list op) (i : isolate) : option isolate :=
  match os with
  | [] => Some i
  | o :: os' =>
      match perform o i with
      | Some i' => perform_all os' i'
      | None => None
      end
  end.

Fixpoint possible_all (i : isolate) (os : list op) : Prop :=
  match os with
  | [] => True
  | o :: os' =>
      possible i o ∧
      match perform o i with
      | Some i' => possible_all i' os'
      | None => True
      end
  end.

Global Instance possible_all_dec os : ∀ i, Decision (possible_all i os).
Proof.
  induction os as [|o os IH]; intros i; simpl; [apply _|].
  destruct (perform o i); apply _.
Defined.

(** The wrapping invariant: every V8 object of the isolate is an
    instance whose tracker is live and holds the same handle as
    internal field 1, and that handle is a live third-party object; no
    tracker and no third-party object is shared by two instances, and
    none exists without its instance. *)
Record wrapped (i : isolate) : Prop := {
  wrapped_instance : ∀ h o, v8_heap i !! h = Some o ->
      prototype_of o = prototype ∧
      trackers i !! internal_field_0 o = Some {| obj_ := internal_field_1 o |} ∧
      is_Some (natives i !! internal_field_1 o);
  wrapped_apart : ∀ h1 h2 o1 o2,
      v8_heap i !! h1 = Some o1 -> v8_heap i !! h2 = Some o2 ->
      internal_field_0 o1 = internal_field_0 o2
      ∨ internal_field_1 o1 = internal_field_1 o2 ->
      h1 = h2;
  wrapped_native : ∀ p x, natives i !! p = Some x ->
      ∃ h o, v8_heap i !! h = Some o ∧ internal_field_1 o = p;
  wrapped_tracker : ∀ t x, trackers i !! t = Some x ->
      ∃ h o, v8_heap i !! h = Some o ∧ internal_field_0 o = t
}.

(** A script: two objects, calls on both (one call with a number, one
    with no argument), the first object collected, the second used
    again. *)
Definition script : list op :=
  [ OpCreateObject 10 20 30 [Number 5%float];
    OpCreateObject 11 21 31 [];
    OpPlusOne [ObjectRef 20];
    OpMethod 21;
    OpPlusOne [Number 1%float];
    OpPlusOne [];
    OpCollect 20;
    OpPlusOne [ObjectRef 20];
    OpMethod 21 ].

End native_wrap.

(** * Proofs *)

(** ** Equations of the primitives *)

Lemma fresh_not_null w p : fresh w p -> p ≠ NULL.
Proof. intros [Hs _] ->. apply Hs. by left. Qed.

Lemma fresh_not_server w p : fresh w p -> p ≠ addr_server_.
Proof. intros [Hs _] ->. apply Hs. right. by left. Qed.

Lemma malloc_fresh w p o :
  fresh w p ->
  malloc p o w = Ok p (log_call (Malloc p) (set_heap (<[p := o]> (heap w)) w)).
Proof.
  intros Hf. pose proof (fresh_not_null _ _ Hf) as Hn. destruct Hf as [Hs Hl].
  unfold malloc. rewrite Hl. repeat case_decide; done.
Qed.

Lemma free_live w p o :
  heap w !! p = Some o -> p ≠ NULL ->
  free p w = Ok tt (log_call (Free p) (set_heap (delete p (heap w)) w)).
Proof. intros Hl Hn. unfold free. rewrite Hl. by case_decide. Qed.

Lemma not_static p : ¬ static_addr p -> p ≠ NULL ∧ p ≠ addr_server_.
Proof. unfold static_addr. tauto. Qed.

Lemma handle_status_live w h st :
  live_handle w h st -> handle_status h w = Some st.
Proof.
  intros [Hn Hl]. apply not_static in Hn as [_ Hn].
  unfold handle_status. rewrite Hl. by case_decide.
Qed.

Lemma to_uint_small n : 0 <= n < 2 ^ 32 -> to_uint n = n.
Proof. intros H. unfold to_uint. by apply Z.mod_small. Qed.

Lemma to_uint_range n : 0 <= to_uint n < 2 ^ 32.
Proof. unfold to_uint. apply Z.mod_pos_bound. lia. Qed.

Lemma world_eq w1 w2 :
  heap w1 = heap w2 -> server_ w1 = server_ w2 -> loop_ w1 = loop_ w2 ->
  pending w1 = pending w2 -> calls w1 = calls w2 -> w1 = w2.
Proof. destruct w1, w2; simpl; congruence. Qed.

(** Symbolic execution of a straight-line run: unfold the monad and the
    primitives, resolve the heap lookups, split on the tests. *)
Ltac unfold_m :=
  unfold bind, ret, gets, modify, error, log_call, set_heap, set_pending,
    set_server_, set_loop_ in *; simpl in *.
Ltac exec_step :=
  first
    [ progress (unfold malloc, free, store_req_data, store_buf,
                load_write_data, uv_write, uv_close, uv_tcp_init, uv_accept,
                uv_read_start, uv_tcp_bind, uv_listen, uv_ip4_addr,
                handle_status, set_handle_status, uv_buf_init; unfold_m)
    | match goal with
      | H : server_ ?w = _ |- context [server_ ?w] => rewrite H
      | H : loop_ ?w = _ |- context [loop_ ?w] => rewrite H
      | H : holds_socket ?s = _ |- context [holds_socket ?s] => rewrite H
      end
    | progress simplify_map_eq
    | case_decide; try done; try lia ].
Ltac exec := repeat exec_step.

(** Extensional equality of two heaps built from inserts and deletes. *)
Ltac heap_eq :=
  apply map_eq; intros ?k;
  repeat (rewrite lookup_insert || rewrite lookup_delete);
  repeat case_decide; subst; try done; try congruence.

(** Equality of two worlds reached by a run. *)
Ltac field_done :=
  first [ done | heap_eq | (by rewrite <- ?app_assoc, ?app_nil_r) ].
Ltac world_done :=
  first [ done
        | f_equal; apply world_eq; simpl; field_done
        | apply world_eq; simpl; field_done ].

(** Counting calls in an explicit piece of log. *)
Ltac count_done :=
  unfold count, release_log, read_error_log, write_error_log;
  repeat (simpl; first [ case_decide | case_bool_decide ]); simpl;
  first [ done | congruence | lia ].

(** ** The paths of [read_cb] and [write_cb] *)

(** [nread > 0]: one [uv_write] of the first [nread] bytes; the buffer
    stays with the request when libuv accepts it and is released with
    the request when libuv refuses it. *)
Lemma read_cb_positive w wd_p r stream nread b cap data :
  nread > 0 -> nread <= len b -> len b < 2 ^ 32 ->
  nread <= Z.of_nat (length data) ->
  fresh w wd_p -> live_handle w stream Reading ->
  live_buf w (base b) cap data ->
  read_cb wd_p r stream nread b w = Ok tt
    (if decide (r = 0) then
       World (<[wd_p := WriteData wd_p (Build_uv_buf_t (base b) nread)]> (heap w))
             (server_ w) (loop_ w) (pending w ++ [(wd_p, stream)])
             (calls w ++ [Malloc wd_p;
                          UvWrite wd_p stream (take (Z.to_nat nread) data) r])
     else
       World (delete (base b) (heap w))
             (server_ w) (loop_ w) (pending w)
             (calls w ++ [Malloc wd_p;
                          UvWrite wd_p stream (take (Z.to_nat nread) data) r;
                          Free (base b); Free wd_p;
                          Fprintf "Error on writing client stream" r])).
Proof.
  intros Hpos Hlen Hlim Hdata Hf [[_ Hns]%not_static Hs] [Hnb Hb].
  pose proof (fresh_not_null _ _ Hf) as Hnw.
  pose proof (fresh_not_server _ _ Hf) as Hnsv.
  destruct Hf as [Hst Hfl].
  assert (wd_p ≠ base b) by congruence.
  assert (wd_p ≠ stream) by congruence.
  assert (Hu : to_uint nread = nread) by (apply to_uint_small; lia).
  unfold read_cb, free_write_data, uv_buf_init. rewrite Hu. exec.
  - world_done.
  - world_done.
Qed.

(** [nread = 0]: nothing but the release of the buffer. *)
Lemma read_cb_zero w wd_p r stream b :
  (base b = NULL ∨ is_Some (heap w !! base b)) ->
  read_cb wd_p r stream 0 b w = Ok tt
    (World (release (base b) (heap w)) (server_ w) (loop_ w) (pending w)
           (calls w ++ release_log (base b))).
Proof.
  intros Hb. unfold read_cb, release, release_log.
  destruct Hb as [Hb | [o Hb]]; exec; world_done.
Qed.

(** [nread < 0]: the error is logged unless it is [UV_EOF], the stream
    is closed and freed, the buffer is released. *)
Lemma read_cb_negative w wd_p r stream nread b :
  nread < 0 ->
  live_handle w stream Reading ->
  (base b = NULL ∨ ∃ cap data, heap w !! base b = Some (Buf cap data)) ->
  read_cb wd_p r stream nread b w = Ok tt
    (World (release (base b) (delete stream (heap w)))
           (server_ w) (loop_ w) (pending w)
           (calls w ++ read_error_log nread ++ [UvClose stream; Free stream]
                    ++ release_log (base b))).
Proof.
  intros Hneg [[Hnn Hns]%not_static Hs] Hb.
  assert (base b ≠ stream)
    by (intros E; destruct Hb as [Hb|(?&?&Hb)]; congruence).
  unfold read_cb, close_and_free, release, release_log, read_error_log.
  destruct Hb as [Hb | (cap & data & Hb)]; exec; world_done.
Qed.

(** [write_cb] on a request set up by [read_cb]: buffer and request
    are freed, a non-zero status is logged. *)
Lemma write_cb_frees w req status b cap data :
  req ≠ NULL ->
  heap w !! req = Some (WriteData req b) ->
  live_buf w (base b) cap data ->
  write_cb req status w = Ok tt
    (World (delete req (delete (base b) (heap w)))
           (server_ w) (loop_ w) (pending w)
           (calls w ++ [Free (base b); Free req] ++ write_error_log status)).
Proof.
  intros Hn Hr [Hnb Hb].
  assert (req ≠ base b) by congruence.
  unfold write_cb, free_write_data, write_error_log.
  exec; world_done.
Qed.

(** ** The paths of [connection_cb] *)

Lemma connection_cb_error w client_p ra rs server status :
  status < 0 ->
  connection_cb client_p ra rs server status w = Ok tt
    (World (heap w) (server_ w) (loop_ w) (pending w)
           (calls w ++ [Fprintf "Error on listening" status])).
Proof. intros H. unfold connection_cb. exec; world_done. Qed.

Lemma connection_cb_accept_fails w client_p ra rs status :
  0 <= status -> ra ≠ 0 ->
  server_ w = Listening -> fresh w client_p ->
  connection_cb client_p ra rs addr_server_ status w = Ok tt
    (World (heap w) (server_ w) (loop_ w) (pending w)
           (calls w ++ [Malloc client_p; UvTcpInit (loop_ w) client_p;
                        UvAccept addr_server_ client_p ra; Free client_p;
                        Fprintf "Error on accepting client connection" ra])).
Proof.
  intros Hst Hra Hsv [Hsa Hf]. pose proof (not_static _ Hsa) as [Hn Hns].
  unfold connection_cb. exec; world_done.
Qed.

Lemma connection_cb_read_start_fails w client_p rs status :
  0 <= status -> rs ≠ 0 ->
  server_ w = Listening -> fresh w client_p ->
  connection_cb client_p 0 rs addr_server_ status w = Ok tt
    (World (heap w) (server_ w) (loop_ w) (pending w)
           (calls w ++ [Malloc client_p; UvTcpInit (loop_ w) client_p;
                        UvAccept addr_server_ client_p 0;
                        UvReadStart client_p rs;
                        UvClose client_p; Free client_p;
                        Fprintf "Error on reading client stream" rs])).
Proof.
  intros Hst Hrs Hsv [Hsa Hf]. pose proof (not_static _ Hsa) as [Hn Hns].
  unfold connection_cb, close_and_free. exec; world_done.
Qed.

Lemma connection_cb_accepts w client_p status :
  0 <= status ->
  server_ w = Listening -> fresh w client_p ->
  connection_cb client_p 0 0 addr_server_ status w = Ok tt
    (World (<[client_p := Tcp Reading]> (heap w))
           (server_ w) (loop_ w) (pending w)
           (calls w ++ [Malloc client_p; UvTcpInit (loop_ w) client_p;
                        UvAccept addr_server_ client_p 0;
                        UvReadStart client_p 0])).
Proof.
  intros Hst Hsv [Hsa Hf]. pose proof (not_static _ Hsa) as [Hn Hns].
  unfold connection_cb. exec; world_done.
Qed.

(** ** The paths of [start] *)

Lemma start_wrong_arguments w r1 r2 r3 args :
  (∀ z, args ≠ [JsNumber z]) ->
  ∃ msg, start r1 r2 r3 args w = Ok (Threw msg) w.
Proof.
  intros H. unfold start.
  destruct args as [|a [|]]; [by eexists| |by eexists].
  destruct a; simpl; try by eexists. by destruct (H integer_value).
Qed.

Lemma start_already_started w r1 r2 r3 z :
  loop_ w ≠ NULL ->
  start r1 r2 r3 [JsNumber z] w = Ok (Threw "Already started") w.
Proof. intros H. unfold start. exec; world_done. Qed.

Lemma start_parse_fails w r_ip4 r2 r3 z :
  loop_ w = NULL -> r_ip4 ≠ 0 ->
  start r_ip4 r2 r3 [JsNumber z] w = Ok (Threw "Failed to start")
    (World (heap w) (server_ w) (loop_ w) (pending w)
           (calls w ++ [UvIp4Addr "127.0.0.1" (to_int z) r_ip4;
                        Fprintf "Error on parsing address" r_ip4])).
Proof. intros Hl Hr. unfold start. exec; world_done. Qed.

Lemma start_bind_fails w r_bind r3 z :
  loop_ w = NULL -> holds_socket (server_ w) = false -> r_bind ≠ 0 ->
  start 0 r_bind r3 [JsNumber z] w = Ok (Threw "Failed to start")
    (World (heap w) Initialised NULL (pending w)
           (calls w ++ [UvIp4Addr "127.0.0.1" (to_int z) 0;
                        UvTcpInit uv_default_loop addr_server_;
                        UvTcpBind addr_server_ r_bind;
                        Fprintf "Error on binding" r_bind])).
Proof.
  intros Hl Hs Hr. unfold start. exec; world_done.
Qed.

Lemma start_listen_fails w r_listen z :
  loop_ w = NULL -> holds_socket (server_ w) = false -> r_listen ≠ 0 ->
  start 0 0 r_listen [JsNumber z] w = Ok (Threw "Failed to start")
    (World (heap w) Closed NULL (pending w)
           (calls w ++ [UvIp4Addr "127.0.0.1" (to_int z) 0;
                        UvTcpInit uv_default_loop addr_server_;
                        UvTcpBind addr_server_ 0;
                        UvListen addr_server_ 0 r_listen;
                        UvClose addr_server_;
                        Fprintf "Error on listening" r_listen])).
Proof.
  intros Hl Hs Hr. unfold start. exec; world_done.
Qed.

Lemma start_succeeds w z :
  loop_ w = NULL -> holds_socket (server_ w) = false ->
  start 0 0 0 [JsNumber z] w = Ok Returned
    (World (heap w) Listening uv_default_loop (pending w)
           (calls w ++ [UvIp4Addr "127.0.0.1" (to_int z) 0;
                        UvTcpInit uv_default_loop addr_server_;
                        UvTcpBind addr_server_ 0;
                        UvListen addr_server_ 0 0])).
Proof.
  intros Hl Hs. unfold start. exec; world_done.
Qed.

(** ** The paths of a read event

    [alloc_cb], libuv's read step and [read_cb], end to end. *)

Lemma dispatch_read_data w stream ss buf_p bs wd_p r :
  admissible w (EvRead stream ss buf_p (RxData bs) wd_p r) ->
  dispatch (EvRead stream ss buf_p (RxData bs) wd_p r) w = Ok tt
    (if decide (r = 0) then
       World (<[wd_p := WriteData wd_p
                          (Build_uv_buf_t buf_p (Z.of_nat (length bs)))]>
                (<[buf_p := Buf ss bs]> (heap w)))
             (server_ w) (loop_ w) (pending w ++ [(wd_p, stream)])
             (calls w ++ [Malloc buf_p; Malloc wd_p; UvWrite wd_p stream bs r])
     else
       World (heap w) (server_ w) (loop_ w) (pending w)
             (calls w ++ [Malloc buf_p; Malloc wd_p; UvWrite wd_p stream bs r;
                          Free buf_p; Free wd_p;
                          Fprintf "Error on writing client stream" r])).
Proof.
  intros (Hs & Hss & Hbuf & Hwd & Hne & Hnn & Hbs & Hlen).
  destruct Hbuf as [|Hbuf]; [done|].
  pose proof (to_uint_range ss) as Hu.
  assert (Hpos : 0 < Z.of_nat (length bs)) by (destruct bs; [done|simpl; lia]).
  unfold dispatch, alloc_cb, bind at 1 2.
  rewrite (malloc_fresh _ _ _ Hbuf). unfold ret at 1.
  set (w1 := log_call _ _).
  assert (E : uv_read (uv_buf_init buf_p ss) (RxData bs) w1
              = Ok (Z.of_nat (length bs))
                   (set_heap (<[buf_p := Buf ss bs]> (heap w1)) w1)).
  { unfold uv_read, uv_buf_init, w1. exec; world_done. }
  unfold bind. rewrite E. set (w2 := set_heap _ w1).
  rewrite (read_cb_positive w2 wd_p r stream _ _ ss bs).
  - rewrite firstn_all2 by lia. unfold w2, w1.
    destruct Hbuf as [? Hbuf], Hwd as [? Hwd].
    case_decide; world_done.
  - lia.
  - simpl. lia.
  - simpl. lia.
  - lia.
  - destruct Hwd as [? Hwd]. split; [done|]. unfold w2, w1. simpl.
    by rewrite !lookup_insert_ne.
  - destruct Hs as [? Hs], Hbuf as [? Hbuf]. split; [done|].
    unfold w2, w1. simpl.
    rewrite !lookup_insert_ne; [done|congruence|congruence].
  - split; [done|]. unfold w2, w1. simpl. by rewrite lookup_insert_eq.
Qed.

Lemma dispatch_read_status w stream ss buf_p c wd_p r :
  admissible w (EvRead stream ss buf_p (RxStatus c) wd_p r) ->
  dispatch (EvRead stream ss buf_p (RxStatus c) wd_p r) w = Ok tt
    (let nread := status_nread ss buf_p c in
     if decide (nread = 0) then
       World (heap w) (server_ w) (loop_ w) (pending w)
             (calls w ++ [Malloc buf_p] ++ release_log buf_p)
     else
       World (delete stream (heap w)) (server_ w) (loop_ w) (pending w)
             (calls w ++ [Malloc buf_p] ++ read_error_log nread
                      ++ [UvClose stream; Free stream] ++ release_log buf_p)).
Proof.
  intros (Hs & Hss & Hbuf & Hwd & Hne & Hc).
  assert (Hneg : status_nread ss buf_p c <= 0)
    by (unfold status_nread, UV_ENOBUFS; case_decide; lia).
  unfold dispatch, alloc_cb, bind at 1 2.
  destruct Hbuf as [-> | Hbuf].
  - (* no buffer *)
    assert (E : status_nread ss NULL c = UV_ENOBUFS)
      by (unfold status_nread; case_decide; tauto).
    rewrite E in *. unfold malloc, uv_read, uv_buf_init, ret. simpl.
    unfold bind. simpl.
    rewrite (read_cb_negative _ wd_p r stream UV_ENOBUFS); simpl.
    + unfold release, release_log, UV_ENOBUFS. simpl. world_done.
    + done.
    + done.
    + by left.
  - rewrite (malloc_fresh _ _ _ Hbuf). unfold ret at 1.
    set (w1 := log_call _ _).
    assert (E : uv_read (uv_buf_init buf_p ss) (RxStatus c) w1
                = Ok (status_nread ss buf_p c) w1).
    { unfold uv_read, status_nread, uv_buf_init. simpl.
      pose proof (fresh_not_null _ _ Hbuf).
      repeat case_decide; try done; tauto. }
    unfold bind. rewrite E.
    assert (Hs1 : live_handle w1 stream Reading).
    { destruct Hs as [? Hs], Hbuf as [? Hbuf]. split; [done|].
      unfold w1; simpl. rewrite lookup_insert_ne; [done|congruence]. }
    assert (Hb1 : heap w1 !! buf_p = Some (Buf ss [])).
    { unfold w1; simpl. by rewrite lookup_insert_eq. }
    pose proof (fresh_not_null _ _ Hbuf) as Hnn.
    destruct Hbuf as [? Hbuf]. destruct Hs as [? Hs].
    assert (buf_p ≠ stream) by congruence.
    simpl. case_decide as Hz.
    + rewrite Hz. rewrite read_cb_zero by (right; simpl; eauto).
      unfold release, release_log, w1; simpl.
      repeat case_decide; try done. world_done.
    + rewrite read_cb_negative; [| lia | done | right; simpl; eauto].
      unfold release, release_log, w1; simpl.
      repeat case_decide; try done. world_done.
Qed.

(** ** The paths of the other events *)

Lemma dispatch_written w req status b cap data :
  req ≠ NULL ->
  heap w !! req = Some (WriteData req b) ->
  live_buf w (base b) cap data ->
  dispatch (EvWritten req status) w = Ok tt
    (World (delete req (delete (base b) (heap w)))
           (server_ w) (loop_ w)
           (filter (fun e => e.1 ≠ req) (pending w))
           (calls w ++ [Free (base b); Free req] ++ write_error_log status)).
Proof.
  intros Hn Hr Hb. unfold dispatch, remove_pending, bind at 1, modify.
  rewrite (write_cb_frees _ req status b cap data); done.
Qed.

Lemma wf_initial : wf initial.
Proof.
  split; simpl; try (intros; simplify_map_eq; done).
  - constructor.
  - intros req H. by apply elem_of_nil in H.
  - by right.
Qed.

(** Frame: a change of the log alone keeps the invariant. *)
Lemma wf_log w cs :
  wf w -> wf (World (heap w) (server_ w) (loop_ w) (pending w) cs).
Proof. intros []. by split. Qed.

Lemma args_cases (args : list jsval) :
  (∃ z, args = [JsNumber z]) ∨ (∀ z, args ≠ [JsNumber z]).
Proof.
  destruct args as [|[] [|]]; try (right; intros; discriminate).
  left. by eexists.
Qed.

Lemma wf_start w r1 r2 r3 args c w' :
  wf w -> start r1 r2 r3 args w = Ok c w' -> wf w'.
Proof.
  intros Hwf H.
  destruct (args_cases args) as [[z ->]|Hargs].
  2:{ destruct (start_wrong_arguments w r1 r2 r3 args Hargs) as [msg E].
      congruence. }
  destruct (decide (loop_ w = NULL)) as [Hl|Hl].
  2:{ rewrite start_already_started in H by done. congruence. }
  assert (Hs : holds_socket (server_ w) = false).
  { destruct (wf_listener _ Hwf) as [[_ ?]|[? _]]; done. }
  destruct (decide (r1 = 0)) as [->|].
  2:{ rewrite start_parse_fails in H by done. inversion H; subst.
      by apply wf_log. }
  destruct (decide (r2 = 0)) as [->|].
  2:{ rewrite start_bind_fails in H by done. inversion H; subst.
      destruct Hwf. split; simpl; try done. by right. }
  destruct (decide (r3 = 0)) as [->|].
  2:{ rewrite start_listen_fails in H by done. inversion H; subst.
      destruct Hwf. split; simpl; try done. by right. }
  rewrite start_succeeds in H by done. inversion H; subst.
  destruct Hwf. split; simpl; try done. by left.
Qed.

Lemma start_total w r1 r2 r3 args :
  wf w -> ∃ c w', start r1 r2 r3 args w = Ok c w'.
Proof.
  intros Hwf.
  destruct (args_cases args) as [[z ->]|Hargs].
  2:{ destruct (start_wrong_arguments w r1 r2 r3 args Hargs) as [msg E].
      eauto. }
  destruct (decide (loop_ w = NULL)) as [Hl|Hl].
  2:{ rewrite start_already_started by done. eauto. }
  assert (Hs : holds_socket (server_ w) = false).
  { destruct (wf_listener _ Hwf) as [[_ ?]|[? _]]; done. }
  destruct (decide (r1 = 0)) as [->|].
  2:{ rewrite start_parse_fails by done. eauto. }
  destruct (decide (r2 = 0)) as [->|].
  2:{ rewrite start_bind_fails by done. eauto. }
  destruct (decide (r3 = 0)) as [->|].
  2:{ rewrite start_listen_fails by done. eauto. }
  rewrite start_succeeds by done. eauto.
Qed.

(** Case analysis of a lookup in a heap that was inserted in or deleted
    from. *)
Ltac lk :=
  repeat match goal with
    | H : <[_:=_]> _ !! _ = Some _ |- _ =>
        apply lookup_insert_Some in H as [[<- H]|[? H]];
        [try discriminate H; simplify_eq |]
    | H : delete _ _ !! _ = Some _ |- _ =>
        apply lookup_delete_Some in H as [? H]
    end.

Lemma wf_add_conn w c cs :
  wf w -> fresh w c ->
  wf (World (<[c := Tcp Reading]> (heap w)) (server_ w) (loop_ w)
            (pending w) cs).
Proof.
  intros [] [Hst Hf]. split; simpl; try done.
  - intros p o H. lk; eauto.
  - intros req Hin. destruct (wf_pending0 req Hin) as (b & cap & data & Hr & Hb).
    exists b, cap, data. rewrite !lookup_insert_ne by congruence. done.
  - intros p cap data H. lk.
    destruct (wf_buf0 _ _ _ H) as (req & b & Hr & Hb).
    exists req, b. rewrite lookup_insert_ne by congruence. done.
  - intros p d b H. lk. eauto.
  - intros r1 r2 d1 d2 b1 b2 H1 H2. lk. eauto.
  - intros h st H. lk; eauto.
Qed.

Lemma wf_del_conn w s st cs :
  wf w -> heap w !! s = Some (Tcp st) ->
  wf (World (delete s (heap w)) (server_ w) (loop_ w) (pending w) cs).
Proof.
  intros [] Hs. split; simpl; try done.
  - intros p o H. lk; eauto.
  - intros req Hin. destruct (wf_pending0 req Hin) as (b & cap & data & Hr & Hb).
    exists b, cap, data. rewrite !lookup_delete_ne by congruence. done.
  - intros p cap data H. lk.
    destruct (wf_buf0 _ _ _ H) as (req & b & Hr & Hb).
    exists req, b. rewrite lookup_delete_ne by congruence. done.
  - intros p d b H. lk. eauto.
  - intros r1 r2 d1 d2 b1 b2 H1 H2. lk. eauto.
  - intros h st' H. lk; eauto.
Qed.

Lemma wf_add_write w buf_p wd_p stream ss bs n cs :
  wf w -> fresh w buf_p -> fresh w wd_p -> wd_p ≠ buf_p ->
  wf (World (<[wd_p := WriteData wd_p (Build_uv_buf_t buf_p n)]>
               (<[buf_p := Buf ss bs]> (heap w)))
            (server_ w) (loop_ w) (pending w ++ [(wd_p, stream)]) cs).
Proof.
  intros [] [Hsb Hfb] [Hsw Hfw] Hne. split; simpl; try done.
  - intros p o H. lk; eauto.
  - rewrite fmap_app. simpl. apply NoDup_app. split; [done|]. split.
    + intros x Hx Hx'. apply list_elem_of_singleton in Hx' as ->.
      destruct (wf_pending0 _ Hx) as (?&?&?&?&?). congruence.
    + apply NoDup_singleton.
  - intros req Hin. rewrite fmap_app in Hin. simpl in Hin.
    apply elem_of_app in Hin as [Hin|Hin].
    + destruct (wf_pending0 req Hin) as (b & cap & data & Hr & Hb).
      exists b, cap, data. rewrite !lookup_insert_ne by congruence. done.
    + apply list_elem_of_singleton in Hin as ->.
      exists (Build_uv_buf_t buf_p n), ss, bs. simpl.
      rewrite lookup_insert_eq, lookup_insert_ne, lookup_insert_eq by done.
      done.
  - intros p cap data H. lk.
    + exists wd_p, (Build_uv_buf_t buf_p n). by rewrite lookup_insert_eq.
    + destruct (wf_buf0 _ _ _ H) as (req & b & Hr & Hb).
      exists req, b. rewrite !lookup_insert_ne by congruence. done.
  - intros p d b H. rewrite fmap_app. simpl. apply elem_of_app. lk.
    + right. by apply list_elem_of_singleton.
    + left. eauto.
  - assert (Hold : ∀ r d b,
              heap w !! r = Some (WriteData d b) -> base b ≠ buf_p).
    { intros r d b Hr E.
      destruct (wf_pending0 r (wf_wd0 _ _ _ Hr)) as (b' & ? & ? & Hr' & Hb').
      rewrite Hr in Hr'. by simplify_eq. }
    intros r1 r2 d1 d2 b1 b2 H1 H2 Hb. lk; simpl in *; try done.
    + exfalso. by eapply Hold.
    + exfalso. by eapply Hold.
    + eauto.
  - intros h st H. lk; eauto.
Qed.

Lemma wf_del_write w req b cs :
  wf w -> heap w !! req = Some (WriteData req b) ->
  wf (World (delete req (delete (base b) (heap w))) (server_ w) (loop_ w)
            (filter (fun e => e.1 ≠ req) (pending w)) cs).
Proof.
  intros [] Hr.
  assert (∃ cap data, heap w !! base b = Some (Buf cap data))
    as (cap0 & data0 & Hb0).
  { destruct (wf_pending0 req (wf_wd0 _ _ _ Hr)) as (b0 & ? & ? & Hr0 & Hb0).
    rewrite Hr in Hr0. simplify_eq. eauto. }
  split; simpl; try done.
  - intros p o H. lk; eauto.
  - clear -wf_nodup0. induction (pending w) as [|[r s] l IH]; simpl.
    + constructor.
    + apply NoDup_cons in wf_nodup0 as [Hnin Hnd].
      rewrite filter_cons. simpl. case_decide; simpl; [|by apply IH].
      apply NoDup_cons. split; [|by apply IH].
      intros Hin. apply Hnin. apply list_elem_of_fmap in Hin as (e & -> & He).
      apply list_elem_of_fmap. exists e. split; [done|].
      by apply list_elem_of_filter in He as [_ He].
  - intros r Hin. apply list_elem_of_fmap in Hin as (e & -> & He).
    apply list_elem_of_filter in He as [Hne He]. simpl in Hne.
    assert (Hin : e.1 ∈ (pending w).*1)
      by (apply list_elem_of_fmap; eauto).
    destruct (wf_pending0 _ Hin) as (b' & cap & data & Hr' & Hb').
    exists b', cap, data.
    assert (base b' ≠ base b) by (intros E; eapply Hne, wf_owner0; eauto).
    rewrite !lookup_delete_ne by congruence. done.
  - intros p cap data H. lk.
    destruct (wf_buf0 _ _ _ H) as (r & b' & Hr' & Hb').
    exists r, b'. rewrite !lookup_delete_ne by congruence. done.
  - intros p d b' H. lk.
    apply wf_wd0 in H. apply list_elem_of_fmap in H as (e & -> & He).
    apply list_elem_of_fmap. exists e. split; [done|].
    apply list_elem_of_filter. done.
  - intros r1 r2 d1 d2 b1 b2 H1 H2. lk. eauto.
  - intros h st H. lk; eauto.
Qed.

(** ** Every admissible event is handled without a fault *)

Lemma writes_on_app s l1 l2 :
  writes_on s (l1 ++ l2) = writes_on s l1 ++ writes_on s l2.
Proof.
  induction l1 as [|c l1 IH]; simpl; [done|].
  destruct c; try done. case_decide; simpl; by rewrite IH.
Qed.

Lemma start_safe w r1 r2 r3 args :
  wf w ->
  ∃ c w', start r1 r2 r3 args w = Ok c w' ∧ wf w' ∧
          ∀ s, writes_on s (calls w') = writes_on s (calls w).
Proof.
  intros Hwf.
  destruct (start_total w r1 r2 r3 args Hwf) as (c & w' & E).
  exists c, w'. split; [done|]. split; [by eapply wf_start|].
  intros s. revert E.
  destruct (args_cases args) as [[z ->]|Hargs].
  2:{ destruct (start_wrong_arguments w r1 r2 r3 args Hargs) as [msg E].
      rewrite E. by intros [= _ <-]. }
  destruct (decide (loop_ w = NULL)) as [Hl|Hl].
  2:{ rewrite start_already_started by done. by intros [= _ <-]. }
  assert (Hs : holds_socket (server_ w) = false).
  { destruct (wf_listener _ Hwf) as [[_ ?]|[? _]]; done. }
  destruct (decide (r1 = 0)) as [->|].
  2:{ rewrite start_parse_fails by done. intros [= _ <-]. simpl.
      rewrite writes_on_app. simpl. by rewrite app_nil_r. }
  destruct (decide (r2 = 0)) as [->|].
  2:{ rewrite start_bind_fails by done. intros [= _ <-]. simpl.
      rewrite writes_on_app. simpl. by rewrite app_nil_r. }
  destruct (decide (r3 = 0)) as [->|].
  2:{ rewrite start_listen_fails by done. intros [= _ <-]. simpl.
      rewrite writes_on_app. simpl. by rewrite app_nil_r. }
  rewrite start_succeeds by done. intros [= _ <-]. simpl.
  rewrite writes_on_app. simpl. by rewrite app_nil_r.
Qed.

Lemma connection_safe w status c ra rs :
  wf w -> admissible w (EvConnection status c ra rs) ->
  ∃ w', dispatch (EvConnection status c ra rs) w = Ok tt w' ∧ wf w' ∧
        ∀ s, writes_on s (calls w') = writes_on s (calls w).
Proof.
  intros Hwf [Hsv Hf]. simpl.
  destruct (decide (status < 0)).
  { rewrite connection_cb_error by done. eexists. split; [done|].
    split; [by apply wf_log|]. intros s. simpl.
    rewrite writes_on_app. simpl. by rewrite app_nil_r. }
  destruct (decide (ra = 0)) as [->|].
  2:{ rewrite connection_cb_accept_fails by (done || lia).
      eexists. split; [done|]. split; [by apply wf_log|]. intros s. simpl.
      rewrite writes_on_app. simpl. by rewrite app_nil_r. }
  destruct (decide (rs = 0)) as [->|].
  2:{ rewrite connection_cb_read_start_fails by (done || lia).
      eexists. split; [done|]. split; [by apply wf_log|]. intros s. simpl.
      rewrite writes_on_app. simpl. by rewrite app_nil_r. }
  rewrite connection_cb_accepts by (done || lia).
  eexists. split; [done|]. split; [by apply wf_add_conn|]. intros s. simpl.
  rewrite writes_on_app. simpl. by rewrite app_nil_r.
Qed.

Lemma read_safe w stream ss buf_p input wd_p r :
  wf w -> admissible w (EvRead stream ss buf_p input wd_p r) ->
  ∃ w', dispatch (EvRead stream ss buf_p input wd_p r) w = Ok tt w' ∧ wf w' ∧
        ∀ s, writes_on s (calls w')
             = writes_on s (calls w)
               ++ chunks s [EvRead stream ss buf_p input wd_p r].
Proof.
  intros Hwf Ha. destruct input as [bs|c].
  - rewrite dispatch_read_data by done.
    destruct Ha as (Hs & Hss & [|Hbuf] & Hwd & Hne & Hnn & Hbs & Hlen);
      [done|].
    case_decide.
    + eexists. split; [done|]. split; [by apply wf_add_write|].
      intros s. simpl. rewrite writes_on_app. simpl.
      by case_decide.
    + eexists. split; [done|]. split; [by apply wf_log|].
      intros s. simpl. rewrite writes_on_app. simpl.
      by case_decide.
  - rewrite dispatch_read_status by done.
    destruct Ha as ([Hst Hs] & _). simpl. case_decide.
    + eexists. split; [done|]. split; [by apply wf_log|].
      intros s. simpl. rewrite writes_on_app.
      unfold release_log. case_decide; simpl; by rewrite app_nil_r.
    + eexists. split; [done|]. split; [by eapply wf_del_conn|].
      intros s. simpl. rewrite !writes_on_app.
      unfold release_log, read_error_log.
      repeat case_decide; simpl; by rewrite app_nil_r.
Qed.

Lemma written_safe w req status :
  wf w -> admissible w (EvWritten req status) ->
  ∃ w', dispatch (EvWritten req status) w = Ok tt w' ∧ wf w' ∧
        ∀ s, writes_on s (calls w') = writes_on s (calls w).
Proof.
  intros Hwf Ha. simpl in Ha.
  destruct (wf_pending _ Hwf req Ha) as (b & cap & data & Hr & Hb).
  assert (Hnr : req ≠ NULL).
  { intros ->. apply (wf_static _ Hwf _ _ Hr). by left. }
  assert (Hnb : base b ≠ NULL).
  { intros E. apply (wf_static _ Hwf _ _ Hb). rewrite E. by left. }
  rewrite (dispatch_written w req status b cap data) by done.
  eexists. split; [done|]. split; [by apply wf_del_write|].
  intros s. simpl. rewrite !writes_on_app. unfold write_error_log.
  case_decide; simpl; by rewrite app_nil_r.
Qed.

Lemma dispatch_safe w ev :
  wf w -> admissible w ev ->
  ∃ w', dispatch ev w = Ok tt w' ∧ wf w' ∧
        ∀ s, writes_on s (calls w') = writes_on s (calls w) ++ chunks s [ev].
Proof.
  intros Hwf Ha. destruct ev.
  - destruct (start_safe w r_ip4 r_bind r_listen args Hwf)
      as (c & w' & E & Hwf' & Hw).
    exists w'. simpl. unfold bind, ret. rewrite E. split; [done|].
    split; [done|]. intros s. by rewrite app_nil_r.
  - destruct (connection_safe _ _ _ _ _ Hwf Ha) as (w' & E & Hwf' & Hw).
    exists w'. split; [done|]. split; [done|]. intros s.
    by rewrite app_nil_r.
  - by apply read_safe.
  - destruct (written_safe _ _ _ Hwf Ha) as (w' & E & Hwf' & Hw).
    exists w'. split; [done|]. split; [done|]. intros s.
    by rewrite app_nil_r.
Qed.

(** Memory safety of the event loop: from a world that satisfies the
    ownership invariant, every run of admissible events is handled
    without a fault (no double free, no use after free, no read of
    unwritten buffer bytes), keeps the invariant, and hands [uv_write],
    stream by stream, exactly the chunks received. *)
Lemma run_safe evs :
  ∀ w, wf w -> admissible_run w evs ->
  ∃ w', run evs w = Ok tt w' ∧ wf w' ∧
        ∀ s, writes_on s (calls w') = writes_on s (calls w) ++ chunks s evs.
Proof.
  induction evs as [|ev evs IH]; intros w Hwf Hrun.
  - exists w. split; [done|]. split; [done|]. intros s. simpl.
    by rewrite app_nil_r.
  - destruct Hrun as [Ha Hrun].
    destruct (dispatch_safe w ev Hwf Ha) as (w1 & E & Hwf1 & Hw1).
    rewrite E in Hrun.
    destruct (IH w1 Hwf1 Hrun) as (w' & E' & Hwf' & Hw').
    exists w'. simpl. unfold bind. rewrite E. split; [done|].
    split; [done|]. intros s. rewrite Hw', Hw1, <- app_assoc. f_equal.
    simpl. destruct ev as [| |s' ? ? [] ? ?|]; simpl; try done.
    by case_decide.
Qed.

(** ** What an event adds to the log *)

(** Splits a call of [start] into its paths, rewriting it to its result. *)
Ltac start_paths w r1 r2 r3 args Hwf :=
  let Hs := fresh "Hs" in
  destruct (args_cases args) as [[?z ->]|?Hargs];
  [ destruct (decide (loop_ w = NULL)) as [?Hl|?Hl];
    [ assert (Hs : holds_socket (server_ w) = false)
        by (destruct (wf_listener _ Hwf) as [[_ ?]|[? _]]; done);
      destruct (decide (r1 = 0)) as [->|?];
      [ destruct (decide (r2 = 0)) as [->|?];
        [ destruct (decide (r3 = 0)) as [->|?];
          [ rewrite start_succeeds by done
          | rewrite start_listen_fails by done ]
        | rewrite start_bind_fails by done ]
      | rewrite start_parse_fails by done ]
    | rewrite start_already_started by done ]
  | let msg := fresh "msg" in
    let E := fresh "E" in
    destruct (start_wrong_arguments w r1 r2 r3 args Hargs) as [msg E];
    rewrite E ].

Lemma wf_statics w s l cs :
  wf w ->
  (s = Listening ∧ l ≠ NULL) ∨ (holds_socket s = false ∧ l = NULL) ->
  wf (World (heap w) s l (pending w) cs).
Proof. intros [] H. by split. Qed.

(** Closes the accounting goals once the event's world is explicit. *)
Ltac effect_done :=
  cbn [calls loop_ server_ heap pending];
  (split; [ first [ done | symmetry; apply app_nil_r ] |]);
  split; [ try (unfold failed; count_done) | try count_done ].

(** The frame goals: the listener, and the connections not read. *)
Ltac frame_done Hother :=
  split;
  [ intros ?; repeat split; first [ done | count_done ]
  | let s := fresh "s" in
    let Hs := fresh "Hs" in
    let Hnr := fresh "Hnr" in
    intros s Hs Hnr; pose proof (Hother s Hs Hnr);
    split;
    [ destruct Hs as [? Hs]; split; [done|]; cbn [heap];
      rewrite ?lookup_insert_ne, ?lookup_delete_ne by (intuition congruence);
      done
    | unfold release_log, read_error_log, write_error_log; simpl;
      repeat (case_decide; simpl); (intuition congruence) ] ].

(** What one admissible event does, beyond keeping the invariant: it
    logs one line exactly when it meets a failure; it leaves a running
    listener alone; and a connection on which it is not a read stays
    open, with no write issued on it. *)
Lemma dispatch_effect w ev :
  wf w -> admissible w ev ->
  ∃ w' new,
    dispatch ev w = Ok tt w' ∧ wf w' ∧ calls w' = calls w ++ new ∧
    count is_fprintf new = (if failed w ev then 1%nat else 0%nat) ∧
    (loop_ w ≠ NULL ->
       loop_ w' = loop_ w ∧ server_ w' = server_ w ∧
       count (is_close addr_server_) new = 0%nat) ∧
    (∀ s, live_handle w s Reading -> ¬ reads_on ev s ->
          live_handle w' s Reading ∧ writes_on s new = []).
Proof.
  intros Hwf Ha. destruct ev as [args r1 r2 r3|status c ra rs|
                                  stream ss buf_p input wd_p r|req status].
  - cbn [dispatch]. unfold bind, ret.
    start_paths w r1 r2 r3 args Hwf;
      (eexists _, _; split; [done|]; split;
       [ first [ exact Hwf
               | apply wf_statics; [done|]; first [ by left | by right ] ] |]).
    all: effect_done.
    destruct args as [|[] [|]]; try done. by destruct (Hargs integer_value).
  - cbn [dispatch]. destruct Ha as [Hsv Hf].
    pose proof (fresh_not_server _ _ Hf) as Hns.
    assert (Hother : ∀ s, live_handle w s Reading ->
              ¬ reads_on (EvConnection status c ra rs) s -> s ≠ c)
      by (intros s [_ Hs] _ ->; destruct Hf; congruence).
    destruct (decide (status < 0));
      [ rewrite connection_cb_error by done
      | destruct (decide (ra = 0)) as [->|];
        [ destruct (decide (rs = 0)) as [->|];
          [ rewrite connection_cb_accepts by (done || lia)
          | rewrite connection_cb_read_start_fails by (done || lia) ]
        | rewrite connection_cb_accept_fails by (done || lia) ] ];
      (eexists _, _; split; [done|]; split;
       [ first [ by apply wf_log | by apply wf_add_conn ] |]).
    all: effect_done.
    all: try frame_done Hother.
  - destruct Ha as (Hs & Hss & Hbuf & Hwd & Hne & Hin).
    pose proof (not_static _ (proj1 Hs)) as [Hsn Hss'].
    assert (Hother : ∀ s, live_handle w s Reading ->
              ¬ reads_on (EvRead stream ss buf_p input wd_p r) s ->
              s ≠ stream ∧ s ≠ wd_p ∧ (buf_p = NULL ∨ s ≠ buf_p)).
    { intros s [_ Hl] Hnr. split; [by intros ->|].
      split; [intros ->; destruct Hwd; congruence|].
      destruct Hbuf as [|[_ Hb]]; [by left|right]. intros ->. congruence. }
    destruct input as [bs|c].
    + rewrite dispatch_read_data by done.
      destruct Hin as (Hnn & _). destruct Hbuf as [|Hbuf]; [done|].
      case_decide;
        (eexists _, _; split; [done|]; split;
         [ first [ by apply wf_log | by apply wf_add_write ] |]).
      all: effect_done.
      all: frame_done Hother.
    + rewrite dispatch_read_status by done. cbv zeta.
      assert (Hneg : status_nread ss buf_p c <= 0)
        by (unfold status_nread, UV_ENOBUFS; case_decide; lia).
      cbn [failed]. set (n := status_nread ss buf_p c) in *.
      destruct (decide (n = 0));
        (eexists _, _; split; [done|]; split;
         [ first [ by apply wf_log | by eapply wf_del_conn, Hs ] |]).
      all: effect_done.
      all: frame_done Hother.
  - simpl in Ha.
    destruct (wf_pending _ Hwf req Ha) as (b & cap & data & Hr & Hb).
    assert (Hnr : req ≠ NULL).
    { intros ->. apply (wf_static _ Hwf _ _ Hr). by left. }
    assert (Hnb : base b ≠ NULL).
    { intros E. apply (wf_static _ Hwf _ _ Hb). rewrite E. by left. }
    assert (Hother : ∀ s, live_handle w s Reading ->
              ¬ reads_on (EvWritten req status) s ->
              s ≠ req ∧ s ≠ base b).
    { intros s [_ Hl] _. split; intros ->; congruence. }
    rewrite (dispatch_written w req status b cap data) by done.
    eexists _, _. split; [done|]. split; [by apply wf_del_write|].
    effect_done. frame_done Hother.
Qed.

Lemma count_app f l1 l2 : count f (l1 ++ l2) = (count f l1 + count f l2)%nat.
Proof. unfold count. by rewrite List.filter_app, length_app. Qed.

(** The effects of the events of a run add up. *)
Lemma run_effect evs :
  ∀ w, wf w -> admissible_run w evs ->
  ∃ w' new,
    run evs w = Ok tt w' ∧ wf w' ∧ calls w' = calls w ++ new ∧
    count is_fprintf new = failures w evs ∧
    (loop_ w ≠ NULL ->
       loop_ w' = loop_ w ∧ server_ w' = server_ w ∧
       count (is_close addr_server_) new = 0%nat) ∧
    (∀ s, live_handle w s Reading -> Forall (fun ev => ¬ reads_on ev s) evs ->
          live_handle w' s Reading ∧ writes_on s new = []).
Proof.
  induction evs as [|ev evs IH]; intros w Hwf Hrun.
  - exists w, []. split; [done|]. split; [done|].
    split; [by rewrite app_nil_r|]. split; [done|].
    split; [by intros _|]. by intros s Hs _.
  - destruct Hrun as [Ha Hrun].
    destruct (dispatch_effect w ev Hwf Ha)
      as (w1 & new1 & E & Hwf1 & Hc1 & Hlog1 & Hsrv1 & Hfr1).
    rewrite E in Hrun.
    destruct (IH w1 Hwf1 Hrun)
      as (w' & new & E' & Hwf' & Hc & Hlog & Hsrv & Hfr).
    exists w', (new1 ++ new). cbn [run failures]. unfold bind.
    rewrite E. split; [done|]. split; [done|].
    split; [by rewrite Hc, Hc1, app_assoc|].
    split; [by rewrite count_app, Hlog1, Hlog|]. split.
    + intros Hl. destruct (Hsrv1 Hl) as (Hl1 & Hs1 & Hz1).
      destruct Hsrv as (Hl2 & Hs2 & Hz2); [congruence|].
      split; [congruence|]. split; [congruence|].
      by rewrite count_app, Hz1, Hz2.
    + intros s Hs Hall. apply Forall_cons in Hall as [Hev Hall].
      destruct (Hfr1 s Hs Hev) as [Hs1 Hw1].
      destruct (Hfr s Hs1 Hall) as [Hs2 Hw2].
      split; [done|]. by rewrite writes_on_app, Hw1, Hw2.
Qed.

(** Closes the goals about what one event adds to the log. *)
Ltac log_done :=
  cbn [calls loop_ server_ heap pending];
  (split; [ first [ done | symmetry; apply app_nil_r ] |]);
  split;
  [ intros ?s; unfold release_log, read_error_log, write_error_log;
    cbn [chunks_accepted]; simpl;
    repeat (case_decide; simpl); try done; intuition congruence
  | intros ?Hq; unfold release_log, read_error_log, write_error_log;
    cbn [quiet] in *; simpl;
    repeat (case_decide; simpl); try done; try (exfalso; intuition lia) ].

(** What one admissible event adds to the log: on each stream, the
    write libuv accepted for the chunk read, if any; and no call of
    [uv_close] when the event is quiet. *)
Lemma dispatch_log w ev :
  wf w -> admissible w ev ->
  ∃ w' new,
    dispatch ev w = Ok tt w' ∧ wf w' ∧ calls w' = calls w ++ new ∧
    (∀ s, echoed s new = chunks_accepted s [ev]) ∧
    (quiet ev -> closing new = []).
Proof.
  intros Hwf Ha. destruct ev as [args r1 r2 r3|status c ra rs|
                                  stream ss buf_p input wd_p r|req status].
  - cbn [dispatch]. unfold bind, ret.
    start_paths w r1 r2 r3 args Hwf;
      (eexists _, _; split; [done|]; split;
       [ first [ exact Hwf
               | apply wf_statics; [done|]; first [ by left | by right ] ] |]).
    all: log_done.
  - cbn [dispatch]. destruct Ha as [Hsv Hf].
    destruct (decide (status < 0));
      [ rewrite connection_cb_error by done
      | destruct (decide (ra = 0)) as [->|];
        [ destruct (decide (rs = 0)) as [->|];
          [ rewrite connection_cb_accepts by (done || lia)
          | rewrite connection_cb_read_start_fails by (done || lia) ]
        | rewrite connection_cb_accept_fails by (done || lia) ] ];
      (eexists _, _; split; [done|]; split;
       [ first [ by apply wf_log | by apply wf_add_conn ] |]).
    all: log_done.
  - destruct Ha as (Hs & Hss & Hbuf & Hwd & Hne & Hin).
    destruct input as [bs|c].
    + rewrite dispatch_read_data by done.
      destruct Hin as (Hnn & _). destruct Hbuf as [|Hbuf]; [done|].
      case_decide;
        (eexists _, _; split; [done|]; split;
         [ first [ by apply wf_log | by apply wf_add_write ] |]).
      all: log_done.
    + rewrite dispatch_read_status by done. cbv zeta.
      cbn [quiet]. set (n := status_nread ss buf_p c) in *.
      destruct (decide (n = 0));
        (eexists _, _; split; [done|]; split;
         [ first [ by apply wf_log | by eapply wf_del_conn, Hs ] |]).
      all: log_done.
  - simpl in Ha.
    destruct (wf_pending _ Hwf req Ha) as (b & cap & data & Hr & Hb).
    assert (Hnr : req ≠ NULL).
    { intros ->. apply (wf_static _ Hwf _ _ Hr). by left. }
    assert (Hnb : base b ≠ NULL).
    { intros E. apply (wf_static _ Hwf _ _ Hb). rewrite E. by left. }
    rewrite (dispatch_written w req status b cap data) by done.
    eexists _, _. split; [done|]. split; [by apply wf_del_write|].
    log_done.
Qed.

Lemma echoed_app s l1 l2 : echoed s (l1 ++ l2) = echoed s l1 ++ echoed s l2.
Proof.
  induction l1 as [|c l1 IH]; [done|].
  destruct c; simpl; try done. case_decide; simpl; by rewrite IH.
Qed.

Lemma closing_app l1 l2 : closing (l1 ++ l2) = closing l1 ++ closing l2.
Proof.
  induction l1 as [|c l1 IH]; [done|]. destruct c; simpl; by rewrite ?IH.
Qed.

Lemma chunks_accepted_cons s ev evs :
  chunks_accepted s (ev :: evs)
  = chunks_accepted s [ev] ++ chunks_accepted s evs.
Proof.
  destruct ev as [| | ? ? ? [] ? ? |]; simpl; try done. by case_decide.
Qed.


(** The end of the closes leaves the world as it is. *)
Lemma finish_closes_ok hs w w' : finish_closes hs w = Ok tt w' -> w' = w.
Proof.
  revert w. induction hs as [|h hs IH]; intros w; simpl.
  - by intros [= ->].
  - unfold bind, uv__finish_close. destruct (handle_status h w); [|done].
    apply IH.
Qed.

(** A turn that ends well is its callback. *)
Lemma turn_ok ev w w' : turn ev w = Ok tt w' -> dispatch ev w = Ok tt w'.
Proof.
  unfold turn. destruct (dispatch ev w) as [[] w1|]; [|done].
  intros H. by rewrite (finish_closes_ok _ _ _ H).
Qed.

Lemma turns_ok evs : ∀ w w', turns evs w = Ok tt w' -> run evs w = Ok tt w'.
Proof.
  induction evs as [|ev evs IH]; intros w w'; simpl; [done|].
  unfold bind. destruct (turn ev w) as [[] w1|] eqn:E; [|done].
  rewrite (turn_ok _ _ _ E). apply IH.
Qed.

(** The logs of the events of a run add up. *)
Lemma run_log evs :
  ∀ w, wf w -> admissible_run w evs ->
  ∃ w' new,
    run evs w = Ok tt w' ∧ wf w' ∧ calls w' = calls w ++ new ∧
    (∀ s, echoed s new = chunks_accepted s evs) ∧
    (Forall quiet evs -> turns evs w = Ok tt w' ∧ closing new = []).
Proof.
  induction evs as [|ev evs IH]; intros w Hwf Hrun.
  - exists w, []. split; [done|]. split; [done|].
    split; [by rewrite app_nil_r|]. by split.
  - destruct Hrun as [Ha Hrun].
    destruct (dispatch_log w ev Hwf Ha) as (w1 & new1 & E & Hwf1 & Hc1 & He1 & Hq1).
    rewrite E in Hrun.
    destruct (IH w1 Hwf1 Hrun) as (w' & new & E' & Hwf' & Hc & He & Hq).
    exists w', (new1 ++ new). cbn [run]. unfold bind. rewrite E.
    split; [done|]. split; [done|].
    split; [by rewrite Hc, Hc1, app_assoc|]. split.
    + intros s. by rewrite echoed_app, He1, He, (chunks_accepted_cons s ev evs).
    + intros Hall. apply Forall_cons in Hall as [Hev Hall].
      destruct (Hq Hall) as [Et Hcl]. specialize (Hq1 Hev).
      split; [|by rewrite closing_app, Hq1, Hcl].
      cbn [turns]. unfold bind, turn. rewrite E, Hc1, drop_app_length, Hq1.
      done.
Qed.

Lemma wf_world_after evs : admissible_run initial evs -> wf (world_after evs).
Proof.
  intros H. destruct (run_safe evs initial wf_initial H) as (w & E & Hwf & _).
  unfold world_after. by rewrite E.
Qed.

(** * The properties of the specification *)




(** Completion of a write request, in any world that satisfies the
    invariant: [write_cb] frees the request and its buffer, once each. *)
Lemma write_completion_frees w req b status :
  wf w -> heap w !! req = Some (WriteData req b) ->
  ∃ w' new, dispatch (EvWritten req status) w = Ok tt w' ∧ wf w' ∧
            calls w' = calls w ++ new ∧
            count (is_free (base b)) new = 1%nat ∧
            count (is_free req) new = 1%nat ∧
            heap w' !! base b = None ∧ heap w' !! req = None.
Proof.
  intros Hwf Hr.
  pose proof (wf_wd _ Hwf _ _ _ Hr) as Hin.
  destruct (wf_pending _ Hwf req Hin) as (b' & cap & data & Hr' & Hb).
  rewrite Hr in Hr'. simplify_eq.
  assert (Hnr : req ≠ NULL).
  { intros ->. apply (wf_static _ Hwf _ _ Hr). by left. }
  assert (Hnb : base b' ≠ NULL).
  { intros E. apply (wf_static _ Hwf _ _ Hb). rewrite E. by left. }
  assert (req ≠ base b') by congruence.
  rewrite (dispatch_written w req status b' cap data) by done.
  eexists _, _. split; [done|]. split; [by apply wf_del_write|].
  simpl. split; [done|].
  split; [count_done|]. split; [count_done|].
  split.
  - rewrite lookup_delete_ne by done. apply lookup_delete_eq.
  - apply lookup_delete_eq.
Qed.

(** C2 (buffer release).  A read event allocates a buffer [buf_p] in
    [alloc_cb] and ends in [read_cb]; no path faults (so nothing is
    freed twice) and the invariant, by which every live buffer belongs to
    one pending write, is kept (so nothing leaks).  When [uv_write] was
    issued and accepted, [read_cb] does not free the buffer: it is live,
    owned by the pending request [wd_p], and the request's completion,
    in whatever later world it happens and with whatever status, frees
    it exactly once.  On every other path (status read with zero or
    negative count, or [uv_write] refused) the buffer is freed exactly
    once before [read_cb] returns. *)
Theorem read_buffer_released_once w stream ss buf_p input wd_p r :
  wf w -> admissible w (EvRead stream ss buf_p input wd_p r) ->
  buf_p ≠ NULL ->
  ∃ w' new,
    dispatch (EvRead stream ss buf_p input wd_p r) w = Ok tt w' ∧ wf w' ∧
    calls w' = calls w ++ new ∧
    if decide (is_data input = true ∧ r = 0) then
      count (is_free buf_p) new = 0%nat ∧
      (∃ cap data, live_buf w' buf_p cap data) ∧
      wd_p ∈ (pending w').*1 ∧
      ∃ n, heap w' !! wd_p = Some (WriteData wd_p (Build_uv_buf_t buf_p n)) ∧
           ∀ w2 status,
             wf w2 ->
             heap w2 !! wd_p = Some (WriteData wd_p (Build_uv_buf_t buf_p n)) ->
             ∃ w3 new', dispatch (EvWritten wd_p status) w2 = Ok tt w3 ∧
                        calls w3 = calls w2 ++ new' ∧
                        count (is_free buf_p) new' = 1%nat ∧
                        heap w3 !! buf_p = None
    else
      count (is_free buf_p) new = 1%nat ∧ heap w' !! buf_p = None.
Proof.
  intros Hwf Ha Hnn.
  destruct (read_safe _ _ _ _ _ _ _ Hwf Ha) as (w' & E & Hwf' & _).
  exists w'. revert E Hwf'. destruct input as [bs|c].
  - rewrite dispatch_read_data by done.
    destruct Ha as (Hs & Hss & [|Hbuf] & Hwd & Hne & _); [done|].
    destruct Hbuf as [Hsb Hfb], Hwd as [Hsw Hfw].
    destruct (decide (r = 0)) as [->|Hr]; intros [= <-] Hwf'.
    + eexists. split; [done|]. split; [done|]. split; [simpl; done|].
      rewrite decide_True by done. simpl.
      split; [count_done|]. split.
      { exists ss, bs. split; [done|]. simpl.
        rewrite lookup_insert_ne by done. apply lookup_insert_eq. }
      split.
      { rewrite fmap_app. apply elem_of_app. right. simpl.
        by apply list_elem_of_singleton. }
      eexists. split; [apply lookup_insert_eq|].
      intros w2 status Hwf2 Hr2.
      destruct (write_completion_frees w2 wd_p _ status Hwf2 Hr2)
        as (w3 & new' & E3 & _ & Hc & Hfree & _ & Hgone & _).
      by exists w3, new'.
    + eexists. split; [done|]. split; [done|]. split; [simpl; done|].
      rewrite decide_False by tauto. simpl.
      split; [count_done | done].
  - rewrite dispatch_read_status by done.
    destruct Ha as ([Hst Hs] & Hss & [|Hbuf] & _); [done|].
    destruct Hbuf as [Hsb Hfb].
    assert (buf_p ≠ stream) by congruence.
    cbv zeta.
    destruct (decide (status_nread ss buf_p c = 0)); intros [= <-] Hwf';
      (eexists; split; [done|]; split; [done|]; split; [simpl; done|]);
      rewrite decide_False by (by intros [? _]); simpl.
    + split; [count_done | done].
    + split; [count_done |]. by rewrite lookup_delete_ne.
Qed.

Lemma read_buffer_released_once_witness :
  ∃ w', dispatch (EvRead 100 65536 200 (RxData ["a"%byte]) 300 0) connected
        = Ok tt w' ∧ wf w' ∧ is_Some (heap w' !! 200).
Proof.
  assert (Hrun : admissible_run initial
            [EvStart [JsNumber 7000] 0 0 0; EvConnection 0 100 0 0])
    by (apply (bool_decide_unpack _); vm_compute; exact I).
  assert (Ha : admissible connected
            (EvRead 100 65536 200 (RxData ["a"%byte]) 300 0))
    by (apply (bool_decide_unpack _); vm_compute; exact I).
  assert (Hn : 200 ≠ NULL) by (unfold NULL; lia).
  destruct (read_buffer_released_once connected 100 65536 200
              (RxData ["a"%byte]) 300 0 (wf_world_after _ Hrun) Ha Hn)
    as (w' & new & E & Hwf & _ & _ & (cap & data & _ & Hb) & _).
  exists w'. split; [done|]. split; [done|]. by rewrite Hb.
Defined.

(** C3, as stated, fails: when [uv_accept] fails, [connection_cb] frees
    the handle it allocated but never calls [uv_close] on it. *)
Lemma accept_failure_not_closed :
  ∃ w', connection_cb 100 (-24) 0 addr_server_ 0 listening = Ok tt w' ∧
        calls w' = calls listening
                   ++ [Malloc 100; UvTcpInit uv_default_loop 100;
                       UvAccept addr_server_ 100 (-24); Free 100;
                       Fprintf "Error on accepting client connection" (-24)] ∧
        count (is_close 100) (calls w') = 0%nat.
Proof. eexists. split; [vm_compute; reflexivity|]. by vm_compute. Qed.

(** C3 (accept failure), amended.  For every incoming-connection event
    with non-negative status on which [uv_accept] returns a non-zero
    status, the handle allocated for the connection is freed exactly
    once and is not closed ([uv_close] is not called), the error is
    logged once, and nothing else changes: heap, listener and [loop_]
    are as before, so further connection events are still accepted. *)
Theorem accept_failure_frees_only w client_p ra rs status :
  0 <= status -> ra ≠ 0 -> server_ w = Listening -> fresh w client_p ->
  ∃ w' new,
    connection_cb client_p ra rs addr_server_ status w = Ok tt w' ∧
    calls w' = calls w ++ new ∧
    new = [Malloc client_p; UvTcpInit (loop_ w) client_p;
           UvAccept addr_server_ client_p ra; Free client_p;
           Fprintf "Error on accepting client connection" ra] ∧
    count (is_free client_p) new = 1%nat ∧
    count (is_close client_p) new = 0%nat ∧
    count is_fprintf new = 1%nat ∧
    last new = Some (Fprintf "Error on accepting client connection" ra) ∧
    heap w' = heap w ∧ server_ w' = server_ w ∧ loop_ w' = loop_ w ∧
    pending w' = pending w ∧
    ∀ status' c' ra' rs',
      fresh w c' -> admissible w' (EvConnection status' c' ra' rs').
Proof.
  intros Hst Hra Hsv Hf.
  rewrite connection_cb_accept_fails by done.
  eexists _, _. split; [done|]. simpl. split; [done|]. split; [done|].
  split; [count_done|]. split; [count_done|]. split; [count_done|].
  do 5 (split; [done|]).
  intros status' c' ra' rs' Hf'. by split.
Qed.

Lemma accept_failure_frees_only_witness :
  ∃ w', connection_cb 100 (-24) 0 addr_server_ 0 listening = Ok tt w' ∧
        heap w' = heap listening ∧ server_ w' = Listening.
Proof.
  assert (H0 : 0 <= 0) by lia.
  assert (Hra : -24 ≠ 0) by lia.
  assert (Hsv : server_ listening = Listening) by reflexivity.
  assert (Hf : fresh listening 100)
    by (apply (bool_decide_unpack _); vm_compute; exact I).
  destruct (accept_failure_frees_only listening 100 (-24) 0 0 H0 Hra Hsv Hf)
    as (w' & new & E & _ & _ & _ & _ & _ & _ & Hh & Hs & _).
  exists w'. split; [done|]. split; [done|]. by rewrite Hs.
Defined.




(** C5 (negative read completion): the code misses it.  For every read
    completion with a negative byte count on a connection being read,
    [read_cb] logs the error exactly when the count is not [UV_EOF] and
    then calls [close_and_free]: the handle is freed right after
    [uv_close], before the callback returns, while libuv still has to
    finish the close.  The turn of the loop that delivers the read ends
    in a fault: the end of the close goes through freed memory.  Writes
    accepted before on the connection are still pending at that
    point. *)
Theorem negative_read_frees_closing_handle w stream ss buf_p c wd_p r :
  admissible w (EvRead stream ss buf_p (RxStatus c) wd_p r) ->
  status_nread ss buf_p c < 0 ->
  ∃ w',
    dispatch (EvRead stream ss buf_p (RxStatus c) wd_p r) w = Ok tt w' ∧
    calls w' = calls w ++ [Malloc buf_p]
                       ++ read_error_log (status_nread ss buf_p c)
                       ++ [UvClose stream; Free stream]
                       ++ release_log buf_p ∧
    heap w' !! stream = None ∧
    pending w' = pending w ∧
    turn (EvRead stream ss buf_p (RxStatus c) wd_p r) w
    = Fault (BadPointer stream).
Proof.
  intros Ha Hneg.
  pose proof (dispatch_read_status w stream ss buf_p c wd_p r Ha) as E.
  cbv zeta in E. rewrite decide_False in E by lia.
  destruct Ha as ([Hst _] & _).
  assert (Hns : stream ≠ addr_server_) by (intros ->; apply Hst; right; by left).
  eexists. split; [exact E|]. cbn [calls heap pending].
  split; [done|]. split; [apply lookup_delete_eq|]. split; [done|].
  unfold turn. rewrite E. cbn [calls]. rewrite drop_app_length.
  assert (Hcl : closing ([Malloc buf_p]
                         ++ read_error_log (status_nread ss buf_p c)
                         ++ [UvClose stream; Free stream]
                         ++ release_log buf_p) = [stream]).
  { unfold read_error_log, release_log. by repeat (case_decide; simpl). }
  rewrite Hcl. cbn [finish_closes]. unfold bind, uv__finish_close, handle_status.
  rewrite decide_False by done. cbn [heap]. by rewrite lookup_delete_eq.
Qed.

Lemma negative_read_frees_closing_handle_witness :
  ∃ w',
    dispatch (EvRead 100 65536 201 (RxStatus UV_EOF) 301 0) echoing = Ok tt w' ∧
    pending w' = [(300, 100)] ∧
    turn (EvRead 100 65536 201 (RxStatus UV_EOF) 301 0) echoing
    = Fault (BadPointer 100).
Proof.
  assert (Ha : admissible echoing
                 (EvRead 100 65536 201 (RxStatus UV_EOF) 301 0))
    by (apply (bool_decide_unpack _); vm_compute; exact I).
  assert (Hneg : status_nread 65536 201 UV_EOF < 0) by (by vm_compute).
  destruct (negative_read_frees_closing_handle echoing 100 65536 201
              UV_EOF 301 0 Ha Hneg)
    as (w' & E & _ & _ & Hp & Ht).
  exists w'. split; [exact E|]. split; [|exact Ht].
  rewrite Hp. by vm_compute.
Defined.

(** C6 (zero-length read).  A read completion that reports zero bytes
    on a connection being read changes nothing but the read buffer,
    which is released: no write is issued, nothing is closed or logged,
    statics and pending writes are as before, and the connection's
    handle is still live and reading. *)
Theorem zero_read_is_noop w wd_p r stream b :
  live_handle w stream Reading ->
  (base b = NULL ∨ ∃ cap data, heap w !! base b = Some (Buf cap data)) ->
  ∃ w',
    read_cb wd_p r stream 0 b w = Ok tt w' ∧
    calls w' = calls w ++ release_log (base b) ∧
    count is_write (release_log (base b)) = 0%nat ∧
    count (is_close stream) (release_log (base b)) = 0%nat ∧
    count is_fprintf (release_log (base b)) = 0%nat ∧
    heap w' = release (base b) (heap w) ∧
    (∀ p, p ≠ base b -> heap w' !! p = heap w !! p) ∧
    server_ w' = server_ w ∧ loop_ w' = loop_ w ∧ pending w' = pending w ∧
    live_handle w' stream Reading.
Proof.
  intros [Hst Hs] Hb.
  rewrite read_cb_zero
    by (destruct Hb as [|(?&?&Hb)]; [by left | right; by rewrite Hb]).
  assert (Hne : base b ≠ stream)
    by (intros E; destruct Hb as [Hb|(?&?&Hb)]; [|congruence];
        apply Hst; left; congruence).
  assert (Hframe : ∀ p, p ≠ base b ->
            release (base b) (heap w) !! p = heap w !! p).
  { intros p Hp. unfold release. case_decide; [done|].
    by rewrite lookup_delete_ne. }
  eexists. split; [done|]. cbn [calls heap loop_ server_ pending].
  split; [done|]. split; [count_done|]. split; [count_done|].
  split; [count_done|]. split; [done|]. split; [done|].
  do 3 (split; [done|]). split; [done|].
  cbn [heap]. by rewrite Hframe.
Qed.

Lemma zero_read_is_noop_witness :
  ∃ w', read_cb 300 0 100 0 (Build_uv_buf_t NULL 0) connected = Ok tt w' ∧
        live_handle w' 100 Reading.
Proof.
  assert (Hs : live_handle connected 100 Reading)
    by (apply (bool_decide_unpack _); vm_compute; exact I).
  assert (Hb : base (Build_uv_buf_t NULL 0) = NULL ∨
               ∃ cap data, heap connected !! base (Build_uv_buf_t NULL 0)
                           = Some (Buf cap data))
    by (left; reflexivity).
  destruct (zero_read_is_noop connected 300 0 100 (Build_uv_buf_t NULL 0)
              Hs Hb)
    as (w' & E & _ & _ & _ & _ & _ & _ & _ & _ & _ & Hl).
  by exists w'.
Defined.

(** C7 (no double start).  When the service runs ([loop_] is set), a
    call of [start] with one number is answered "Already started" and
    leaves the world as it was: no libuv call is made, the listener and
    [loop_] are untouched. *)
Theorem second_start_rejected w r_ip4 r_bind r_listen z :
  loop_ w ≠ NULL ->
  start r_ip4 r_bind r_listen [JsNumber z] w
  = Ok (Threw "Already started") w.
Proof.
  intros Hl. unfold start. cbn [IsNumber negb].
  unfold bind, gets. by rewrite decide_True.
Qed.

Lemma second_start_rejected_witness :
  start 0 0 0 [JsNumber 7001] listening = Ok (Threw "Already started") listening
  ∧ server_ listening = Listening.
Proof.
  assert (Hl : loop_ listening ≠ NULL) by (vm_compute; discriminate).
  split; [|reflexivity].
  exact (second_start_rejected listening 0 0 0 7001 Hl).
Defined.

(** C8 (listen failure).  When [start] is called with one number on a
    service that is not started, the bind succeeds and [uv_listen]
    fails, the listening handle is closed right after the failed
    [uv_listen], before the error is logged and "Failed to start" is
    thrown (this module's report of a listen error); the handle holds
    no socket afterwards and [loop_] is still [NULL]. *)
Theorem listen_failure_closes_socket w r_listen z :
  wf w -> loop_ w = NULL -> r_listen ≠ 0 ->
  ∃ w',
    start 0 0 r_listen [JsNumber z] w = Ok (Threw "Failed to start") w' ∧
    calls w' = calls w ++ [UvIp4Addr "127.0.0.1" (to_int z) 0;
                           UvTcpInit uv_default_loop addr_server_;
                           UvTcpBind addr_server_ 0;
                           UvListen addr_server_ 0 r_listen;
                           UvClose addr_server_;
                           Fprintf "Error on listening" r_listen] ∧
    server_ w' = Closed ∧ holds_socket (server_ w') = false ∧
    loop_ w' = NULL ∧ heap w' = heap w ∧ pending w' = pending w.
Proof.
  intros Hwf Hl Hr.
  assert (Hs : holds_socket (server_ w) = false).
  { destruct (wf_listener _ Hwf) as [[_ ?]|[? _]]; done. }
  rewrite start_listen_fails by done. by eexists.
Qed.

Lemma listen_failure_closes_socket_witness :
  ∃ w', start 0 0 (-98) [JsNumber 7000] initial
        = Ok (Threw "Failed to start") w' ∧ server_ w' = Closed.
Proof.
  assert (Hl : loop_ initial = NULL) by reflexivity.
  assert (Hr : -98 ≠ 0) by lia.
  destruct (listen_failure_closes_socket initial (-98) 7000
              wf_initial Hl Hr) as (w' & E & _ & Hs & _).
  by exists w'.
Defined.

(** C9 (write failure).  On a connection being read: (a) when a write
    completes with a non-zero status, [write_cb] frees the payload
    buffer and the request and logs the error; (b) when [uv_write]
    itself returns a non-zero status, [read_cb] frees the payload buffer
    and the request at once and logs the error.  In neither case is
    [uv_close] called: the connection's handle stays live and
    reading. *)
Theorem write_failure_is_log_only w stream :
  live_handle w stream Reading ->
  (∀ req status b cap data,
      status ≠ 0 -> req ≠ NULL ->
      heap w !! req = Some (WriteData req b) ->
      live_buf w (base b) cap data ->
      ∃ w', write_cb req status w = Ok tt w' ∧
            calls w' = calls w
                       ++ [Free (base b); Free req;
                           Fprintf "Error on writing client stream" status] ∧
            heap w' !! base b = None ∧
            live_handle w' stream Reading)
  ∧
  (∀ wd_p r nread b cap data,
      r ≠ 0 -> nread > 0 -> nread <= len b -> len b < 2 ^ 32 ->
      nread <= Z.of_nat (length data) ->
      fresh w wd_p -> live_buf w (base b) cap data ->
      ∃ w', read_cb wd_p r stream nread b w = Ok tt w' ∧
            calls w' = calls w
                       ++ [Malloc wd_p;
                           UvWrite wd_p stream (take (Z.to_nat nread) data) r;
                           Free (base b); Free wd_p;
                           Fprintf "Error on writing client stream" r] ∧
            heap w' !! base b = None ∧
            live_handle w' stream Reading).
Proof.
  intros [Hst Hs]. split.
  - intros req status b cap data Hstatus Hn Hr [Hnb Hb].
    rewrite (write_cb_frees w req status b cap data) by done.
    eexists. split; [done|]. cbn [calls heap]. unfold write_error_log.
    rewrite decide_True by done. split; [done|].
    assert (req ≠ base b) by congruence.
    split.
    + rewrite lookup_delete_ne by done. apply lookup_delete_eq.
    + split; [done|]. cbn [heap].
      rewrite !lookup_delete_ne by congruence. done.
  - intros wd_p r nread b cap data Hr Hpos Hlen Hlim Hdata Hf [Hnb Hb].
    rewrite (read_cb_positive w wd_p r stream nread b cap data) by done.
    rewrite decide_False by done.
    eexists. split; [done|]. cbn [calls heap]. split; [done|].
    split; [apply lookup_delete_eq|].
    split; [done|]. cbn [heap]. rewrite lookup_delete_ne by congruence. done.
Qed.

Lemma write_failure_is_log_only_witness :
  ∃ w', write_cb 300 (-32) echoing = Ok tt w' ∧ live_handle w' 100 Reading.
Proof.
  assert (Hs : live_handle echoing 100 Reading)
    by (apply (bool_decide_unpack _); vm_compute; exact I).
  assert (Hst : -32 ≠ 0) by lia.
  assert (Hn : 300 ≠ NULL) by (unfold NULL; lia).
  assert (Hr : heap echoing !! 300
               = Some (WriteData 300 (Build_uv_buf_t 200 1)))
    by (vm_compute; reflexivity).
  assert (Hb : live_buf echoing (base (Build_uv_buf_t 200 1)) 65536 ["a"%byte])
    by (apply (bool_decide_unpack _); vm_compute; exact I).
  destruct (proj1 (write_failure_is_log_only echoing 100 Hs)
              300 (-32) (Build_uv_buf_t 200 1) 65536 ["a"%byte]
              Hst Hn Hr Hb) as (w' & E & _ & _ & Hl).
  by exists w'.
Defined.

(** X1 (memory safety while every connection stays open), from the
    initial world.  As long as [malloc] answers for [write_data] and
    [uv_tcp_t], the calls [uv_tcp_bind], [uv_listen], [uv_accept] and
    [uv_read_start] succeed when they are made, and no read ends with
    an error or the end of the stream, every turn of the loop - the
    callback, then the end of the closes it asked for - goes without a
    fault, whatever the events and their order: nothing is freed
    twice, nothing is used after its release, no unwritten buffer byte
    is sent, no handle is closed; and between callbacks every live
    buffer belongs to exactly one pending write, every live
    [write_data] is a pending request and every live handle is a
    connection being read. *)
Theorem event_loop_memory_safe evs :
  admissible_run initial evs -> Forall quiet evs ->
  ∃ w', turns evs initial = Ok tt w' ∧ wf w' ∧ closing (calls w') = [].
Proof.
  intros Hrun Hq.
  destruct (run_log evs initial wf_initial Hrun)
    as (w' & new & _ & Hwf & Hc & _ & Hquiet).
  destruct (Hquiet Hq) as [Et Hcl].
  exists w'. split; [done|]. split; [done|]. by rewrite Hc.
Qed.

Lemma event_loop_memory_safe_witness :
  ∃ w',
    turns [EvStart [JsNumber 7000] 0 0 0;
           EvConnection 0 100 0 0;
           EvConnection 0 101 0 0;
           EvRead 100 65536 200 (RxData ["h"%byte; "e"%byte]) 300 0;
           EvRead 101 65536 201 (RxData ["X"%byte]) 301 (-32);
           EvWritten 300 (-32);
           EvRead 100 65536 200 (RxStatus 0) 300 0;
           EvConnection (-24) 102 0 0] initial = Ok tt w' ∧ wf w'.
Proof.
  set (evs := [EvStart [JsNumber 7000] 0 0 0;
               EvConnection 0 100 0 0;
               EvConnection 0 101 0 0;
               EvRead 100 65536 200 (RxData ["h"%byte; "e"%byte]) 300 0;
               EvRead 101 65536 201 (RxData ["X"%byte]) 301 (-32);
               EvWritten 300 (-32);
               EvRead 100 65536 200 (RxStatus 0) 300 0;
               EvConnection (-24) 102 0 0]).
  assert (Hrun : admissible_run initial evs)
    by (apply (bool_decide_unpack _); vm_compute; exact I).
  assert (Hq : Forall quiet evs)
    by (apply (bool_decide_unpack _); vm_compute; exact I).
  destruct (event_loop_memory_safe evs Hrun Hq) as (w' & E & Hwf & _).
  exists w'. split; [exact E | exact Hwf].
Defined.

(** X2 (listener error).  A connection event that carries an error
    status is logged and nothing else happens: no handle is allocated,
    no libuv call is made, the listener is as before. *)
Theorem listener_error_is_logged_only w client_p ra rs server status :
  status < 0 ->
  connection_cb client_p ra rs server status w = Ok tt
    (World (heap w) (server_ w) (loop_ w) (pending w)
           (calls w ++ [Fprintf "Error on listening" status])).
Proof. intros H. unfold connection_cb. by rewrite decide_True. Qed.

Lemma listener_error_is_logged_only_witness :
  connection_cb 100 0 0 addr_server_ (-24) listening = Ok tt
    (World (heap listening) Listening uv_default_loop []
           (calls listening ++ [Fprintf "Error on listening" (-24)])).
Proof.
  assert (H : -24 < 0) by lia.
  exact (listener_error_is_logged_only listening 100 0 0 addr_server_ (-24) H).
Defined.

(** X3 (read-start failure).  When the connection is accepted but
    [uv_read_start] fails, the new handle is closed, then freed, the
    error is logged, and the heap and the listener are as before. *)
Theorem read_start_failure_closes_and_frees w client_p rs status :
  0 <= status -> rs ≠ 0 -> server_ w = Listening -> fresh w client_p ->
  connection_cb client_p 0 rs addr_server_ status w = Ok tt
    (World (heap w) (server_ w) (loop_ w) (pending w)
           (calls w ++ [Malloc client_p; UvTcpInit (loop_ w) client_p;
                        UvAccept addr_server_ client_p 0;
                        UvReadStart client_p rs;
                        UvClose client_p; Free client_p;
                        Fprintf "Error on reading client stream" rs])).
Proof.
  intros Hst Hrs Hsv [Hsa Hf]. pose proof (not_static _ Hsa) as [Hn Hns].
  unfold connection_cb, close_and_free. exec; world_done.
Qed.

Lemma read_start_failure_closes_and_frees_witness :
  ∃ w', connection_cb 100 0 (-9) addr_server_ 0 listening = Ok tt w' ∧
        heap w' = heap listening.
Proof.
  assert (H0 : 0 <= 0) by lia.
  assert (Hrs : -9 ≠ 0) by lia.
  assert (Hsv : server_ listening = Listening) by reflexivity.
  assert (Hf : fresh listening 100)
    by (apply (bool_decide_unpack _); vm_compute; exact I).
  eexists. split.
  - exact (read_start_failure_closes_and_frees listening 100 (-9) 0
             H0 Hrs Hsv Hf).
  - reflexivity.
Defined.

(** X4 (address parse failure).  When [uv_ip4_addr] fails, [start] logs
    "Error on parsing address" and throws "Failed to start"; the
    listening handle is not even initialised and the service stays
    unstarted. *)
Theorem parse_failure_leaves_unstarted w r_ip4 r_bind r_listen z :
  loop_ w = NULL -> r_ip4 ≠ 0 ->
  start r_ip4 r_bind r_listen [JsNumber z] w = Ok (Threw "Failed to start")
    (World (heap w) (server_ w) NULL (pending w)
           (calls w ++ [UvIp4Addr "127.0.0.1" (to_int z) r_ip4;
                        Fprintf "Error on parsing address" r_ip4])).
Proof. intros Hl Hr. unfold start. exec; world_done. Qed.

Lemma parse_failure_leaves_unstarted_witness :
  start (-22) 0 0 [JsNumber 7000] initial = Ok (Threw "Failed to start")
    (World ∅ Uninit NULL []
           [UvIp4Addr "127.0.0.1" 7000 (-22);
            Fprintf "Error on parsing address" (-22)]).
Proof.
  assert (Hl : loop_ initial = NULL) by reflexivity.
  assert (Hr : -22 ≠ 0) by lia.
  exact (parse_failure_leaves_unstarted initial (-22) 0 0 7000 Hl Hr).
Defined.

(** X5 (unchecked allocation).  [read_cb] stores through the result of
    [malloc(sizeof(write_data))] without testing it: when the allocator
    fails on a positive read, the callback faults on the [NULL]
    pointer before any write is issued. *)
Theorem read_cb_faults_without_memory w r stream nread b :
  wf w -> nread > 0 ->
  read_cb NULL r stream nread b w = Fault (BadPointer NULL).
Proof.
  intros Hwf Hpos.
  assert (Hn : heap w !! NULL = None).
  { destruct (heap w !! NULL) eqn:E; [|done].
    destruct (wf_static _ Hwf _ _ E). by left. }
  unfold read_cb, bind. rewrite decide_True by done.
  unfold malloc. rewrite decide_True by done.
  unfold store_req_data. cbn [heap log_call]. by rewrite Hn.
Qed.

Lemma read_cb_faults_without_memory_witness :
  read_cb NULL 0 100 1 (Build_uv_buf_t 200 65536) connected
  = Fault (BadPointer NULL).
Proof.
  assert (H : 1 > 0) by lia.
  assert (Hrun : admissible_run initial
            [EvStart [JsNumber 7000] 0 0 0; EvConnection 0 100 0 0])
    by (apply (bool_decide_unpack _); vm_compute; exact I).
  exact (read_cb_faults_without_memory connected 0 100 1
           (Build_uv_buf_t 200 65536) (wf_world_after _ Hrun) H).
Defined.

(** ** The k-th call of plusOne *)

Lemma plusOne_calls_from k :
  ∀ (i : native_wrap.isolate) h handle x,
    native_wrap.v8_heap i !! h = Some handle ->
    native_wrap.prototype_of handle = native_wrap.prototype ->
    native_wrap.natives i !! native_wrap.internal_field_1 handle
      = Some {| third_party.value_ := x |} ->
    ∃ i', native_wrap.plusOne_calls k (native_wrap.ObjectRef h) i
          = Some (map (fun j => Nat.iter (S j) native_wrap.incr x) (seq 0 k), i')
          ∧ native_wrap.v8_heap i' = native_wrap.v8_heap i.
Proof.
  induction k as [|k IH]; intros i h handle x Hh Hp Hx.
  - by exists i.
  - cbn [native_wrap.plusOne_calls native_wrap.PlusOne native_wrap.ToObject].
    rewrite Hh. unfold native_wrap.IsInstanceOrThrow.
    rewrite decide_True by done.
    unfold native_wrap.ThirdParty_PlusOne, native_wrap.Unwrap,
      third_party.plus_one. rewrite Hx.
    cbn [third_party.Object_PlusOne third_party.value_ fst snd].
    set (i1 := native_wrap.Isolate _ _ _).
    destruct (IH i1 h handle (native_wrap.incr x)) as (i' & E & Hv); try done.
    { unfold i1. cbn. apply lookup_insert_eq. }
    rewrite E. exists i'. split; [|done].
    f_equal. f_equal. cbn [seq map]. f_equal.
    rewrite <- seq_shift, map_map. apply map_ext. intros j.
    by rewrite <- Nat.iter_succ_r.
Qed.

(** C10, as stated, fails: created with 2^53, the object answers 2^53
    to the first and to the second call, which is neither v + k nor
    increasing. *)
Lemma plusOne_stalls_at_2_53 :
  ∃ i1 r1 r2 i2,
    native_wrap.CreateObject 10 20 30
      [native_wrap.Number 9007199254740992%float] native_wrap.empty_isolate
    = native_wrap.Return (native_wrap.ObjectRef 20) i1 ∧
    native_wrap.plusOne_calls 2 (native_wrap.ObjectRef 20) i1
    = Some ([r1; r2], i2) ∧
    r1 = 9007199254740992%float ∧ r2 = 9007199254740992%float ∧
    PrimFloat.ltb r1 r2 = false ∧
    PrimFloat.eqb r2 (PrimFloat.add 9007199254740992%float 2%float) = false.
Proof.
  eexists _, _, _, _. split; [vm_compute; reflexivity|].
  split; [vm_compute; reflexivity|].
  repeat split; vm_compute; reflexivity.
Qed.

(** C10 (plusOne), amended.  For every object created by
    [createObject(v)], [k] successive calls [plusOne(obj)] all return,
    and the j-th of them returns the result of j binary64 increments of
    [v]: each call adds [1.0] to the stored double, stores the rounded
    sum and returns it. *)
Theorem plusOne_kth_call obj_p handle_p tracker_p v i k :
  ∃ i1 ik,
    native_wrap.CreateObject obj_p handle_p tracker_p
      [native_wrap.Number v] i
    = native_wrap.Return (native_wrap.ObjectRef handle_p) i1 ∧
    native_wrap.plusOne_calls k (native_wrap.ObjectRef handle_p) i1
    = Some (map (fun j => Nat.iter (S j) native_wrap.incr v) (seq 0 k), ik).
Proof.
  eexists. 
  edestruct (plusOne_calls_from k) as (ik & E & _); [| | |
    exists ik; split; [reflexivity | exact E] ].
  - cbn. apply lookup_insert_eq.
  - reflexivity.
  - cbn. apply lookup_insert_eq.
Qed.

(** From [0], the first calls count 1, 2, 3: the sums are exact. *)
Example plusOne_counts_from_zero :
  ∃ i1 ik,
    native_wrap.CreateObject 10 20 30 [] native_wrap.empty_isolate
    = native_wrap.Return (native_wrap.ObjectRef 20) i1 ∧
    native_wrap.plusOne_calls 3 (native_wrap.ObjectRef 20) i1
    = Some ([1; 2; 3]%float, ik).
Proof.
  eexists _, _. split; vm_compute; reflexivity.
Qed.

(** * Further properties of echo_server.cc *)

(** X6 (start is all or nothing).  On a service whose listening handle
    was never initialised, or that is started, and whatever its
    arguments and whatever libuv answers: [start] returns normally
    exactly when it is given one number, the service was not started
    and all three libuv calls succeed, and then the service listens;
    in every other case it throws and [loop_] is as before, so that the
    service is as started, or as unstarted, as it was.  The heap and
    the pending writes are never touched. *)
Theorem start_is_all_or_nothing w r_ip4 r_bind r_listen args :
  wf w -> server_ w = Uninit ∨ loop_ w ≠ NULL ->
  ∃ c w',
    start r_ip4 r_bind r_listen args w = Ok c w' ∧
    (c = Returned ↔
       (∃ z, args = [JsNumber z]) ∧ loop_ w = NULL ∧
       r_ip4 = 0 ∧ r_bind = 0 ∧ r_listen = 0) ∧
    (c = Returned -> server_ w' = Listening ∧ loop_ w' = uv_default_loop) ∧
    (c ≠ Returned -> loop_ w' = loop_ w) ∧
    heap w' = heap w ∧ pending w' = pending w.
Proof.
  intros Hwf _.
  start_paths w r_ip4 r_bind r_listen args Hwf;
    (eexists _, _; split; [done|]);
    cbn [loop_ server_ heap pending].
  all: split; [ split; [ try done | intros (Hz & ? & ? & ? & ?) ] |].
  all: try done.
  - intros _. split; [by eexists | done].
  - destruct Hz as [z' ->]. by destruct (Hargs z').
Qed.

Lemma start_is_all_or_nothing_witness :
  ∃ c w', start 0 0 (-98) [JsNumber 7000] initial = Ok c w' ∧ loop_ w' = NULL.
Proof.
  assert (Hu : server_ initial = Uninit ∨ loop_ initial ≠ NULL)
    by (left; reflexivity).
  destruct (start_is_all_or_nothing initial 0 0 (-98) [JsNumber 7000]
              wf_initial Hu)
    as (c & w' & E & Hret & _ & Hkeep & _).
  exists c, w'. split; [done|].
  assert (Hc : c ≠ Returned).
  { intros Hc. apply Hret in Hc as (_ & _ & _ & _ & Hr). lia. }
  by apply Hkeep.
Defined.

Lemma to_int_wraps z k : to_int (z + k * 2 ^ 32) = to_int z.
Proof.
  unfold to_int. f_equal.
  replace (z + k * 2 ^ 32 + 2 ^ 31) with (z + 2 ^ 31 + k * 2 ^ 32) by lia.
  apply Z_mod_plus_full.
Qed.

(** X7 (port truncation).  [start] converts the number to [int] before
    it reaches [uv_ip4_addr]: the port libuv is given is the number
    wrapped to 32 signed bits, which is the number itself only when it
    fits, so two numbers that differ by a multiple of 2^32 start the
    service in exactly the same way. *)
Theorem start_port_truncated w r_ip4 r_bind r_listen z k :
  wf w -> loop_ w = NULL ->
  ∃ c w' rest,
    start r_ip4 r_bind r_listen [JsNumber z] w = Ok c w' ∧
    start r_ip4 r_bind r_listen [JsNumber (z + k * 2 ^ 32)] w = Ok c w' ∧
    calls w' = calls w ++ UvIp4Addr "127.0.0.1" (to_int z) r_ip4 :: rest ∧
    - 2 ^ 31 <= to_int z < 2 ^ 31 ∧
    (- 2 ^ 31 <= z < 2 ^ 31 -> to_int z = z).
Proof.
  intros Hwf Hl.
  assert (Hsame : start r_ip4 r_bind r_listen [JsNumber (z + k * 2 ^ 32)] w
                  = start r_ip4 r_bind r_listen [JsNumber z] w).
  { unfold start. cbn [IsNumber IntegerValue negb]. by rewrite to_int_wraps. }
  assert (Hrange : - 2 ^ 31 <= to_int z < 2 ^ 31).
  { unfold to_int. pose proof (Z.mod_pos_bound (z + 2 ^ 31) (2 ^ 32)). lia. }
  assert (Hid : - 2 ^ 31 <= z < 2 ^ 31 -> to_int z = z).
  { intros H. unfold to_int. rewrite Z.mod_small; lia. }
  rewrite Hsame.
  assert (Hs : holds_socket (server_ w) = false).
  { destruct (wf_listener _ Hwf) as [[_ ?]|[? _]]; done. }
  destruct (decide (r_ip4 = 0)) as [->|].
  2:{ rewrite start_parse_fails by done. by eexists _, _, _. }
  destruct (decide (r_bind = 0)) as [->|].
  2:{ rewrite start_bind_fails by done. by eexists _, _, _. }
  destruct (decide (r_listen = 0)) as [->|].
  2:{ rewrite start_listen_fails by done. by eexists _, _, _. }
  rewrite start_succeeds by done. by eexists _, _, _.
Qed.

Lemma start_port_truncated_witness :
  ∃ c w',
    start 0 0 0 [JsNumber 7000] initial = Ok c w' ∧
    start 0 0 0 [JsNumber (7000 + 1 * 2 ^ 32)] initial = Ok c w'.
Proof.
  assert (Hl : loop_ initial = NULL) by reflexivity.
  destruct (start_port_truncated initial 0 0 0 7000 1 wf_initial Hl)
    as (c & w' & rest & E1 & E2 & _).
  by exists c, w'.
Defined.

(** X8 (no stop).  Once the service runs, nothing the loop delivers
    stops it: at the end of any run of admissible events from a world
    where [loop_] is set, run turn by turn, that did not end in a
    fault, [loop_] has kept its value, [server_] still listens, its
    handle was never closed, and [start] is still answered "Already
    started". *)
Theorem started_is_permanent w evs w' :
  wf w -> loop_ w ≠ NULL -> admissible_run w evs ->
  turns evs w = Ok tt w' ->
  ∃ new,
    calls w' = calls w ++ new ∧
    loop_ w' = loop_ w ∧ server_ w' = Listening ∧
    count (is_close addr_server_) new = 0%nat ∧
    ∀ r_ip4 r_bind r_listen z,
      start r_ip4 r_bind r_listen [JsNumber z] w'
      = Ok (Threw "Already started") w'.
Proof.
  intros Hwf Hl Hrun Ht. apply turns_ok in Ht.
  destruct (run_effect evs w Hwf Hrun)
    as (w2 & new & E & _ & Hc & _ & Hsrv & _).
  rewrite Ht in E. injection E as <-.
  destruct (Hsrv Hl) as (Hl' & Hs' & Hz).
  exists new. split; [done|]. split; [done|].
  split.
  { rewrite Hs'. destruct (wf_listener _ Hwf) as [[? _]|[_ ?]]; done. }
  split; [done|]. intros r1 r2 r3 z.
  apply start_already_started. congruence.
Qed.

Lemma started_is_permanent_witness :
  ∃ w',
    turns [EvConnection 0 100 0 0;
           EvRead 100 65536 200 (RxData ["a"%byte]) 300 0;
           EvStart [JsNumber 7001] 0 0 0;
           EvWritten 300 0] listening = Ok tt w' ∧
    server_ w' = Listening.
Proof.
  set (evs := [EvConnection 0 100 0 0;
               EvRead 100 65536 200 (RxData ["a"%byte]) 300 0;
               EvStart [JsNumber 7001] 0 0 0;
               EvWritten 300 0]).
  assert (Hrun0 : admissible_run initial [EvStart [JsNumber 7000] 0 0 0])
    by (apply (bool_decide_unpack _); vm_compute; exact I).
  assert (Hl : loop_ listening ≠ NULL) by (vm_compute; discriminate).
  assert (Hrun : admissible_run listening evs)
    by (apply (bool_decide_unpack _); vm_compute; exact I).
  assert (Ht : ∃ w', turns evs listening = Ok tt w')
    by (eexists; vm_compute; reflexivity).
  destruct Ht as [w' Ht].
  destruct (started_is_permanent listening evs w'
              (wf_world_after _ Hrun0) Hl Hrun Ht)
    as (new & _ & _ & Hs & _).
  exists w'. split; [exact Ht | exact Hs].
Defined.

(** X9 (echo round trip).  A chunk read, echoed with a write libuv
    accepts, and the completion of that write, whatever its status,
    leave the heap, the pending writes and the statics exactly as they
    were before the read: the read buffer and the write request are the
    only allocations, and both are freed, buffer first, when the write
    completes. *)
Theorem echo_round_trip w stream ss buf_p bs wd_p status :
  wf w ->
  admissible w (EvRead stream ss buf_p (RxData bs) wd_p 0) ->
  ∃ w1 w2,
    dispatch (EvRead stream ss buf_p (RxData bs) wd_p 0) w = Ok tt w1 ∧
    admissible w1 (EvWritten wd_p status) ∧
    dispatch (EvWritten wd_p status) w1 = Ok tt w2 ∧
    heap w2 = heap w ∧ pending w2 = pending w ∧
    server_ w2 = server_ w ∧ loop_ w2 = loop_ w ∧
    calls w2 = calls w ++ [Malloc buf_p; Malloc wd_p;
                           UvWrite wd_p stream bs 0;
                           Free buf_p; Free wd_p]
                      ++ write_error_log status.
Proof.
  intros Hwf Ha.
  rewrite dispatch_read_data by done. rewrite decide_True by done.
  destruct Ha as (Hs & Hss & [|Hbuf] & Hwd & Hne & Hnn & _); [done|].
  pose proof (fresh_not_null _ _ Hbuf) as Hnb.
  pose proof (fresh_not_null _ _ Hwd) as Hnw.
  destruct Hbuf as [_ Hfb], Hwd as [_ Hfw].
  set (b := Build_uv_buf_t buf_p (Z.of_nat (length bs))).
  set (w1 := World _ _ _ _ _).
  assert (Hnotin : wd_p ∉ (pending w).*1).
  { intros Hin. destruct (wf_pending _ Hwf _ Hin) as (?&?&?&?&?). congruence. }
  assert (Hfilter : filter (fun e => e.1 ≠ wd_p) (pending w) = pending w).
  { clear -Hnotin. induction (pending w) as [|e l IH]; [done|].
    rewrite filter_cons. cbn [fmap list_fmap] in Hnotin.
    apply not_elem_of_cons in Hnotin as [Hne Hnotin].
    rewrite decide_True by done. f_equal. by apply IH. }
  exists w1. eexists. split; [done|]. split.
  { unfold w1. cbn [admissible pending]. rewrite fmap_app.
    apply elem_of_app. right. by apply list_elem_of_singleton. }
  split.
  { apply (dispatch_written w1 wd_p status b ss bs); [done| |].
    - unfold w1. cbn [heap]. apply lookup_insert_eq.
    - split; [done|]. unfold w1, b. cbn [heap base].
      rewrite lookup_insert_ne by done. apply lookup_insert_eq. }
  unfold w1, b. cbn [heap pending server_ loop_ calls base].
  split.
  { apply map_eq. intros k.
    destruct (decide (k = wd_p)) as [->|];
      [by rewrite lookup_delete_eq|rewrite lookup_delete_ne by done].
    destruct (decide (k = buf_p)) as [->|];
      [by rewrite lookup_delete_eq|rewrite lookup_delete_ne by done].
    by rewrite !lookup_insert_ne. }
  split.
  { rewrite filter_app, Hfilter, filter_cons, decide_False, filter_nil.
    - by rewrite app_nil_r.
    - by intros ?. }
  split; [done|]. split; [done|]. by rewrite <- !app_assoc.
Qed.

Lemma echo_round_trip_witness :
  ∃ w1 w2,
    dispatch (EvRead 100 65536 200 (RxData ["a"%byte]) 300 0) connected
    = Ok tt w1 ∧
    dispatch (EvWritten 300 0) w1 = Ok tt w2 ∧ heap w2 = heap connected.
Proof.
  assert (Hrun : admissible_run initial
            [EvStart [JsNumber 7000] 0 0 0; EvConnection 0 100 0 0])
    by (apply (bool_decide_unpack _); vm_compute; exact I).
  assert (Ha : admissible connected
            (EvRead 100 65536 200 (RxData ["a"%byte]) 300 0))
    by (apply (bool_decide_unpack _); vm_compute; exact I).
  destruct (echo_round_trip connected 100 65536 200 ["a"%byte] 300 0
              (wf_world_after _ Hrun) Ha)
    as (w1 & w2 & E1 & _ & E2 & Hh & _).
  exists w1, w2. split; [exact E1|]. split; [exact E2 | exact Hh].
Defined.

(** X10 (no read buffer).  When [alloc_cb] could not provide a buffer
    ([malloc] answered [NULL], or the size asked for was zero), the
    read completes with [UV_ENOBUFS]: [read_cb] logs the error, closes
    and frees the connection's handle and releases what [alloc_cb] got
    ([free] is not called on [NULL]); writes pending on the connection
    stay pending. *)
Theorem read_without_buffer_closes w stream ss buf_p c wd_p r :
  admissible w (EvRead stream ss buf_p (RxStatus c) wd_p r) ->
  buf_p = NULL ∨ to_uint ss = 0 ->
  dispatch (EvRead stream ss buf_p (RxStatus c) wd_p r) w = Ok tt
    (World (delete stream (heap w)) (server_ w) (loop_ w) (pending w)
           (calls w ++ [Malloc buf_p;
                        Fprintf "Error on reading client stream" UV_ENOBUFS;
                        UvClose stream; Free stream]
                    ++ (if decide (buf_p = NULL) then [] else [Free buf_p]))).
Proof.
  intros Ha Hno. rewrite dispatch_read_status by done. cbv zeta.
  assert (E : status_nread ss buf_p c = UV_ENOBUFS)
    by (unfold status_nread; by rewrite decide_True).
  rewrite E. rewrite decide_False by done.
  unfold read_error_log, release_log. rewrite decide_True by done.
  f_equal.
Qed.

Lemma read_without_buffer_closes_witness :
  ∃ w', dispatch (EvRead 100 65536 NULL (RxStatus 0) 301 0) echoing = Ok tt w'
        ∧ heap w' !! 100 = None ∧ pending w' = [(300, 100)].
Proof.
  assert (Ha : admissible echoing (EvRead 100 65536 NULL (RxStatus 0) 301 0)).
  { apply (bool_decide_unpack _); vm_compute; exact I. }
  eexists. split.
  - apply (read_without_buffer_closes echoing 100 65536 NULL 0 301 0 Ha).
    by left.
  - split; vm_compute; reflexivity.
Defined.



(** X12 (one log line per failure).  In every admissible run the
    server writes to [stderr] exactly once for each event that meets a
    failure - a failed start-up call, a listener error, a failed accept
    or read start, a refused or failed write, a read error other than
    end of stream - and never otherwise. *)
Theorem every_failure_logged_once w evs :
  wf w -> admissible_run w evs ->
  ∃ w' new,
    run evs w = Ok tt w' ∧ calls w' = calls w ++ new ∧
    count is_fprintf new = failures w evs.
Proof.
  intros Hwf Hrun.
  destruct (run_effect evs w Hwf Hrun) as (w' & new & E & _ & Hc & Hf & _).
  by exists w', new.
Qed.

Lemma every_failure_logged_once_witness :
  ∃ w' new,
    run session initial = Ok tt w' ∧ calls w' = new ∧
    count is_fprintf new = 1%nat.
Proof.
  assert (Hrun : admissible_run initial session)
    by (apply (bool_decide_unpack _); vm_compute; exact I).
  destruct (every_failure_logged_once initial session wf_initial Hrun)
    as (w' & new & E & Hc & Hf).
  exists w', new. split; [exact E|]. split; [exact Hc|].
  rewrite Hf. vm_compute. reflexivity.
Defined.

(** X18 (unchecked allocation of the handle).  [connection_cb] passes
    the result of [malloc(sizeof(uv_tcp_t))] to [uv_tcp_init] without
    testing it: when the allocator fails on a connection event that
    carries no error, the callback faults on the [NULL] pointer before
    anything is accepted. *)
Theorem connection_cb_faults_without_memory w ra rs server status :
  wf w -> 0 <= status ->
  connection_cb NULL ra rs server status w = Fault (BadPointer NULL).
Proof.
  intros Hwf Hpos.
  assert (Hn : heap w !! NULL = None).
  { destruct (heap w !! NULL) eqn:E; [|done].
    destruct (wf_static _ Hwf _ _ E). by left. }
  unfold connection_cb. rewrite decide_False by lia.
  unfold bind, malloc. rewrite decide_True by done.
  unfold gets, uv_tcp_init, handle_status.
  rewrite decide_False by done. cbn [heap log_call]. by rewrite Hn.
Qed.

Lemma connection_cb_faults_without_memory_witness :
  connection_cb NULL 0 0 addr_server_ 0 listening = Fault (BadPointer NULL).
Proof.
  assert (H : 0 <= 0) by lia.
  assert (Hrun : admissible_run initial [EvStart [JsNumber 7000] 0 0 0])
    by (apply (bool_decide_unpack _); vm_compute; exact I).
  exact (connection_cb_faults_without_memory listening 0 0 addr_server_ 0
           (wf_world_after _ Hrun) H).
Defined.

(** * Further properties of native_wrap.cpp *)

Lemma wrapped_empty : native_wrap.wrapped native_wrap.empty_isolate.
Proof. split; cbn; intros; simplify_map_eq. Qed.

(** A change of the value stored in a live third-party object keeps
    the wrapping invariant. *)
Lemma wrapped_update i p x :
  native_wrap.wrapped i -> is_Some (native_wrap.natives i !! p) ->
  native_wrap.wrapped
    (native_wrap.Isolate (<[p := x]> (native_wrap.natives i))
                         (native_wrap.v8_heap i) (native_wrap.trackers i)).
Proof.
  intros [Hi Ha Hn Ht] Hp. split; cbn [native_wrap.natives native_wrap.v8_heap native_wrap.trackers];
    unfold third_party.objects in *.
  - intros h o Ho. destruct (Hi h o Ho) as (? & ? & ?).
    split; [done|]. split; [done|].
    destruct (decide (native_wrap.internal_field_1 o = p)) as [->|];
      [rewrite lookup_insert_eq | rewrite lookup_insert_ne]; done.
  - done.
  - intros q y Hq. destruct (decide (q = p)) as [->|].
    + destruct Hp as [z Hz]. by apply (Hn p z).
    + rewrite lookup_insert_ne in Hq by done. by apply (Hn q y).
  - done.
Qed.

(** On an instance the increment goes through: internal field 1 is a
    live third-party object. *)
Lemma ThirdParty_PlusOne_instance i h o :
  native_wrap.wrapped i -> native_wrap.v8_heap i !! h = Some o ->
  ∃ x,
    native_wrap.natives i !! native_wrap.internal_field_1 o = Some x ∧
    native_wrap.ThirdParty_PlusOne o i
    = native_wrap.Return (native_wrap.incr (third_party.value_ x))
        (native_wrap.Isolate
           (<[native_wrap.internal_field_1 o :=
                {| third_party.value_ :=
                     native_wrap.incr (third_party.value_ x) |}]>
              (native_wrap.natives i))
           (native_wrap.v8_heap i) (native_wrap.trackers i)).
Proof.
  intros Hw Ho. destruct (native_wrap.wrapped_instance _ Hw h o Ho)
    as (_ & _ & [x Hx]).
  exists x. split; [done|].
  unfold native_wrap.ThirdParty_PlusOne, native_wrap.Unwrap,
    third_party.plus_one. by rewrite Hx.
Qed.

Lemma PlusOne_instance i h o :
  native_wrap.wrapped i -> native_wrap.v8_heap i !! h = Some o ->
  native_wrap.PlusOne [native_wrap.ObjectRef h] i
  = native_wrap.ThirdParty_PlusOne o i.
Proof.
  intros Hw Ho. destruct (native_wrap.wrapped_instance _ Hw h o Ho) as (Hp & _).
  cbn [native_wrap.PlusOne native_wrap.ToObject]. rewrite Ho.
  unfold native_wrap.IsInstanceOrThrow. by rewrite decide_True.
Qed.

(** A call of [plusOne] that is given neither an object of the isolate
    nor a forged object as its one argument throws and leaves the
    isolate as it was. *)
Lemma PlusOne_rejects args i :
  (∀ h, args = [native_wrap.ObjectRef h] ->
        native_wrap.v8_heap i !! h = None) ->
  native_wrap.forged_alone args = false ->
  native_wrap.PlusOne args i
  = native_wrap.Throw
      (match args with
       | [_] => "<this> is not a ThirdParty"
       | _ => "Wrong number of arguments"
       end) i.
Proof.
  intros Hno Hnf. destruct args as [|a [|]]; [done| |done].
  destruct a as [| |h| |]; [done|done| |done|done].
  cbn [native_wrap.PlusOne native_wrap.ToObject]. by rewrite (Hno h).
Qed.

(** The check of [plusOne] compares prototypes and nothing else: a
    forged object passes it, and the handle read from its internal
    field is no third-party object. *)
Lemma PlusOne_forged i :
  native_wrap.natives i !! NULL = None ->
  native_wrap.PlusOne [native_wrap.Forged] i = native_wrap.Crash.
Proof.
  intros Hn. cbn [native_wrap.PlusOne native_wrap.ToObject].
  unfold native_wrap.IsInstanceOrThrow.
  cbn [native_wrap.prototype_of]. rewrite decide_True by done.
  unfold native_wrap.ThirdParty_PlusOne, native_wrap.Unwrap,
    third_party.plus_one.
  cbn [native_wrap.internal_field_1]. by rewrite Hn.
Qed.

(** [createObject] with a plain number makes a new instance. *)
Lemma CreateObject_plain obj_p handle_p tracker_p args i :
  native_wrap.plain_number args ->
  ∃ v, native_wrap.CreateObject obj_p handle_p tracker_p args i
       = native_wrap.Return (native_wrap.ObjectRef handle_p)
           (native_wrap.NewInstance obj_p handle_p tracker_p v i).2.
Proof.
  intros Hp. destruct args as [|[] ?]; try done; by eexists.
Qed.

Lemma wrapped_create i obj_p handle_p tracker_p v :
  native_wrap.wrapped i ->
  native_wrap.natives i !! obj_p = None ->
  native_wrap.v8_heap i !! handle_p = None ->
  native_wrap.trackers i !! tracker_p = None ->
  native_wrap.wrapped
    (native_wrap.NewInstance obj_p handle_p tracker_p v i).2.
Proof.
  intros [Hi Ha Hn Ht] Hfo Hfh Hft.
  unfold native_wrap.NewInstance, third_party.create. cbn [snd].
  split; cbn [native_wrap.natives native_wrap.v8_heap native_wrap.trackers];
    unfold third_party.objects in *.
  - intros h o Ho. destruct (decide (h = handle_p)) as [->|].
    + rewrite lookup_insert_eq in Ho. simplify_eq. cbn [native_wrap.prototype_of native_wrap.internal_field_0 native_wrap.internal_field_1].
      by rewrite !lookup_insert_eq.
    + rewrite lookup_insert_ne in Ho by done.
      destruct (Hi h o Ho) as (? & Htr & [x Hx]).
      split; [done|].
      rewrite !lookup_insert_ne by congruence. by eauto.
  - intros h1 h2 o1 o2 H1 H2 Hsame.
    destruct (decide (h1 = handle_p)) as [->|];
      destruct (decide (h2 = handle_p)) as [->|]; [done| | |].
    + rewrite lookup_insert_eq in H1. rewrite lookup_insert_ne in H2 by done.
      simplify_eq. cbn [native_wrap.internal_field_0 native_wrap.internal_field_1] in Hsame.
      destruct (Hi h2 o2 H2) as (? & Htr & [x Hx]).
      destruct Hsame; congruence.
    + rewrite lookup_insert_eq in H2. rewrite lookup_insert_ne in H1 by done.
      simplify_eq. cbn [native_wrap.internal_field_0 native_wrap.internal_field_1] in Hsame.
      destruct (Hi h1 o1 H1) as (? & Htr & [x Hx]).
      destruct Hsame; congruence.
    + rewrite lookup_insert_ne in H1, H2 by done. by eapply Ha.
  - intros p x Hp. destruct (decide (p = obj_p)) as [->|].
    + eexists handle_p, _. by rewrite lookup_insert_eq.
    + rewrite lookup_insert_ne in Hp by done.
      destruct (Hn p x Hp) as (h & o & Ho & <-).
      exists h, o. rewrite lookup_insert_ne by congruence. done.
  - intros t x Hx. destruct (decide (t = tracker_p)) as [->|].
    + eexists handle_p, _. by rewrite lookup_insert_eq.
    + rewrite lookup_insert_ne in Hx by done.
      destruct (Ht t x Hx) as (h & o & Ho & <-).
      exists h, o. rewrite lookup_insert_ne by congruence. done.
Qed.

(** Collecting an instance deletes its tracker, its third-party object
    and itself, and nothing else. *)
Lemma collect_instance i h o :
  native_wrap.wrapped i -> native_wrap.v8_heap i !! h = Some o ->
  native_wrap.collect h i
  = native_wrap.Return tt
      (native_wrap.Isolate
         (delete (native_wrap.internal_field_1 o) (native_wrap.natives i))
         (delete h (native_wrap.v8_heap i))
         (delete (native_wrap.internal_field_0 o) (native_wrap.trackers i))).
Proof.
  intros Hw Ho.
  destruct (native_wrap.wrapped_instance _ Hw h o Ho) as (_ & Ht & [x Hx]).
  unfold native_wrap.collect, native_wrap.Tracker_finalize.
  rewrite Ho, Ht. cbn [native_wrap.obj_]. rewrite Hx. done.
Qed.

Lemma wrapped_collect i h o :
  native_wrap.wrapped i -> native_wrap.v8_heap i !! h = Some o ->
  native_wrap.wrapped
    (native_wrap.Isolate
       (delete (native_wrap.internal_field_1 o) (native_wrap.natives i))
       (delete h (native_wrap.v8_heap i))
       (delete (native_wrap.internal_field_0 o) (native_wrap.trackers i))).
Proof.
  intros [Hi Ha Hn Ht] Ho. split; cbn [native_wrap.natives native_wrap.v8_heap native_wrap.trackers];
    unfold third_party.objects in *.
  - intros h' o' Ho'. apply lookup_delete_Some in Ho' as [Hne Ho'].
    destruct (Hi h' o' Ho') as (? & Htr & Hnat).
    split; [done|].
    rewrite !lookup_delete_ne; [done| |].
    + intros E. apply Hne. symmetry. eapply Ha; eauto.
    + intros E. apply Hne. symmetry. eapply Ha; eauto.
  - intros h1 h2 o1 o2 H1 H2.
    apply lookup_delete_Some in H1 as [_ H1].
    apply lookup_delete_Some in H2 as [_ H2]. by eapply Ha.
  - intros p x Hp. apply lookup_delete_Some in Hp as [Hne Hp].
    destruct (Hn p x Hp) as (h' & o' & Ho' & <-).
    exists h', o'. split; [|done].
    rewrite lookup_delete_ne; [done|]. intros <-. by simplify_eq.
  - intros t x Hx. apply lookup_delete_Some in Hx as [Hne Hx].
    destruct (Ht t x Hx) as (h' & o' & Ho' & <-).
    exists h', o'. split; [|done].
    rewrite lookup_delete_ne; [done|]. intros <-. by simplify_eq.
Qed.

(** Either [plusOne] is given exactly one object of the isolate, or
    it is not. *)
Lemma PlusOne_args_cases (args : list native_wrap.value) i :
  (∃ h o, args = [native_wrap.ObjectRef h]
          ∧ native_wrap.v8_heap i !! h = Some o)
  ∨ (∀ h, args = [native_wrap.ObjectRef h] ->
          native_wrap.v8_heap i !! h = None).
Proof.
  destruct args as [|[| |h| |] [|]]; try (right; intros; discriminate).
  destruct (native_wrap.v8_heap i !! h) as [o|] eqn:Ho; [left; eauto|].
  right. by intros h' [= <-].
Qed.

(** Every possible operation goes through and keeps the invariant. *)
Lemma perform_safe i o :
  native_wrap.wrapped i -> native_wrap.possible i o ->
  ∃ i', native_wrap.perform o i = Some i' ∧ native_wrap.wrapped i'.
Proof.
  intros Hw Hp. destruct o as [obj_p handle_p tracker_p args|args|h|h].
  - destruct Hp as (_ & Hfo & Hfh & Hft & Hplain).
    cbn [native_wrap.perform].
    destruct (CreateObject_plain obj_p handle_p tracker_p args i Hplain)
      as [v ->].
    eexists. split; [done|]. by apply wrapped_create.
  - cbn [native_wrap.perform native_wrap.possible] in *.
    destruct (PlusOne_args_cases args i) as [(h & o & -> & Ho)|Hno].
    + rewrite (PlusOne_instance i h o Hw Ho).
      destruct (ThirdParty_PlusOne_instance i h o Hw Ho) as (x & Hx & ->).
      eexists. split; [done|]. apply wrapped_update; [done|by eexists].
    + rewrite PlusOne_rejects by done. by exists i.
  - destruct Hp as [o Ho]. cbn [native_wrap.perform].
    unfold native_wrap.Method_PlusOne. rewrite Ho.
    destruct (ThirdParty_PlusOne_instance i h o Hw Ho) as (x & Hx & ->).
    eexists. split; [done|]. apply wrapped_update; [done|by eexists].
  - destruct Hp as [o Ho]. cbn [native_wrap.perform].
    rewrite (collect_instance i h o Hw Ho).
    eexists. split; [done|]. by apply wrapped_collect.
Qed.

Lemma perform_all_safe os :
  ∀ i, native_wrap.wrapped i -> native_wrap.possible_all i os ->
       ∃ i', native_wrap.perform_all os i = Some i' ∧ native_wrap.wrapped i'.
Proof.
  induction os as [|o os IH]; intros i Hw Hp.
  - by exists i.
  - destruct Hp as [Hp Hrest]. cbn [native_wrap.perform_all].
    destruct (perform_safe i o Hw Hp) as (i1 & E & Hw1).
    rewrite E in Hrest |- *. by apply IH.
Qed.

(** The isolate [k] calls of [plusOne] on an instance lead to: only
    the value stored in its third-party object has changed. *)
Lemma plusOne_calls_isolate k :
  ∀ (i : native_wrap.isolate) h handle x,
    native_wrap.v8_heap i !! h = Some handle ->
    native_wrap.prototype_of handle = native_wrap.prototype ->
    native_wrap.natives i !! native_wrap.internal_field_1 handle = Some x ->
    ∃ rs x',
      native_wrap.plusOne_calls k (native_wrap.ObjectRef h) i
      = Some (rs, native_wrap.Isolate
                    (<[native_wrap.internal_field_1 handle := x']>
                       (native_wrap.natives i))
                    (native_wrap.v8_heap i) (native_wrap.trackers i)).
Proof.
  induction k as [|k IH]; intros i h handle x Hh Hp Hx.
  - exists [], x. cbn [native_wrap.plusOne_calls].
    unfold third_party.objects in *. rewrite insert_id by done.
    by destruct i.
  - cbn [native_wrap.plusOne_calls native_wrap.PlusOne native_wrap.ToObject].
    rewrite Hh. unfold native_wrap.IsInstanceOrThrow.
    rewrite decide_True by done.
    unfold native_wrap.ThirdParty_PlusOne, native_wrap.Unwrap,
      third_party.plus_one. rewrite Hx.
    cbn [third_party.Object_PlusOne third_party.value_ fst snd].
    set (i1 := native_wrap.Isolate _ _ _).
    destruct (IH i1 h handle
                {| third_party.value_ :=
                     PrimFloat.add (third_party.value_ x) 1 |})
      as (rs & x' & E); try done.
    { unfold i1. cbn [native_wrap.natives].
      unfold third_party.objects in *. apply lookup_insert_eq. }
    rewrite E. eexists _, x'. f_equal. f_equal. unfold i1.
    cbn [native_wrap.natives native_wrap.v8_heap native_wrap.trackers].
    unfold third_party.objects in *. by rewrite insert_insert_eq.
Qed.

(** X13 (the wrapper is memory safe on instances).  As long as
    [createObject] is given a plain number (none, [undefined] or a
    number) and [plusOne] is not given a forged object (X14), whatever
    a script does with the module - creating objects, calling
    [plusOne] with any other arguments, calling the method of an
    instance, letting instances be collected, in any order - nothing
    crashes: every increment reaches a live third-party object, every
    collection destroys a live one, once; and at any time the
    third-party objects and the trackers are exactly those of the
    live instances, so that when the last instance is collected none
    is left. *)
Theorem wrapper_memory_safe os i :
  native_wrap.wrapped i -> native_wrap.possible_all i os ->
  ∃ i', native_wrap.perform_all os i = Some i' ∧ native_wrap.wrapped i' ∧
        (native_wrap.v8_heap i' = ∅ ->
         native_wrap.natives i' = ∅ ∧ native_wrap.trackers i' = ∅).
Proof.
  intros Hw Hp. destruct (perform_all_safe os i Hw Hp) as (i' & E & Hw').
  exists i'. split; [done|]. split; [done|]. intros Hempty.
  split; apply map_empty; intros p.
  - destruct (native_wrap.natives i' !! p) as [x|] eqn:Hx; [|done].
    destruct (native_wrap.wrapped_native _ Hw' p x Hx) as (h & o & Ho & _).
    rewrite Hempty in Ho. by rewrite lookup_empty in Ho.
  - destruct (native_wrap.trackers i' !! p) as [x|] eqn:Hx; [|done].
    destruct (native_wrap.wrapped_tracker _ Hw' p x Hx) as (h & o & Ho & _).
    rewrite Hempty in Ho. by rewrite lookup_empty in Ho.
Qed.

Lemma wrapper_memory_safe_witness :
  ∃ i', native_wrap.perform_all native_wrap.script native_wrap.empty_isolate
        = Some i' ∧ native_wrap.wrapped i'.
Proof.
  assert (Hp : native_wrap.possible_all native_wrap.empty_isolate
                 native_wrap.script)
    by (apply (bool_decide_unpack _); vm_compute; exact I).
  destruct (wrapper_memory_safe native_wrap.script native_wrap.empty_isolate
              wrapped_empty Hp) as (i' & E & Hw & _).
  exists i'. split; [exact E | exact Hw].
Defined.

(** X14 (plusOne checks the prototype only).  On an isolate that
    satisfies the wrapping invariant, the exported [plusOne] does one
    of three things.  Given exactly one instance it stores and returns
    the stored value plus one and changes nothing else.  Given a forged
    object - one that has [ThirdParty]'s prototype but does not come
    from the template - it crashes: [IsInstanceOrThrow] compares
    prototypes and lets it through, and the handle then read from its
    internal field is no third-party object.  Given anything else - no
    argument, several, [undefined], a number, a symbol, an object with
    another prototype - it throws ("Wrong number of arguments" unless
    there is exactly one argument) and leaves the isolate as it
    was. *)
Theorem plusOne_checks_prototype_only args i :
  native_wrap.wrapped i ->
  native_wrap.natives i !! NULL = None ->
  (∃ h o x,
      args = [native_wrap.ObjectRef h] ∧
      native_wrap.v8_heap i !! h = Some o ∧
      native_wrap.natives i !! native_wrap.internal_field_1 o = Some x ∧
      native_wrap.PlusOne args i
      = native_wrap.Return (native_wrap.incr (third_party.value_ x))
          (native_wrap.Isolate
             (<[native_wrap.internal_field_1 o :=
                  {| third_party.value_ :=
                       native_wrap.incr (third_party.value_ x) |}]>
                (native_wrap.natives i))
             (native_wrap.v8_heap i) (native_wrap.trackers i)))
  ∨ (args = [native_wrap.Forged] ∧
     native_wrap.IsInstanceOrThrow
       (native_wrap.ToObject native_wrap.Forged i) i
     = native_wrap.Return
         {| native_wrap.prototype_of := native_wrap.prototype;
            native_wrap.internal_field_0 := NULL;
            native_wrap.internal_field_1 := NULL |} i ∧
     native_wrap.PlusOne args i = native_wrap.Crash)
  ∨ ((∀ h, args = [native_wrap.ObjectRef h] ->
           native_wrap.v8_heap i !! h = None) ∧
     args ≠ [native_wrap.Forged] ∧
     native_wrap.PlusOne args i
     = native_wrap.Throw
         (if decide (length args = 1%nat)
          then "<this> is not a ThirdParty"
          else "Wrong number of arguments") i).
Proof.
  intros Hw Hnull.
  destruct (PlusOne_args_cases args i) as [(h & o & -> & Ho)|Hno].
  - left. destruct (ThirdParty_PlusOne_instance i h o Hw Ho) as (x & Hx & E).
    exists h, o, x. rewrite (PlusOne_instance i h o Hw Ho). done.
  - right. destruct (native_wrap.forged_alone args) eqn:Hf.
    + left. destruct args as [|[] [|]]; try discriminate.
      split; [done|]. split; [|by apply PlusOne_forged].
      cbn [native_wrap.ToObject]. unfold native_wrap.IsInstanceOrThrow.
      cbn [native_wrap.prototype_of]. by rewrite decide_True.
    + right. split; [done|]. split; [by intros ->|].
      rewrite PlusOne_rejects by done. by destruct args as [|? [|]].
Qed.

Lemma plusOne_checks_prototype_only_witness :
  native_wrap.PlusOne [native_wrap.Forged] native_wrap.empty_isolate
  = native_wrap.Crash
  ∧ native_wrap.PlusOne [native_wrap.Number 1%float] native_wrap.empty_isolate
    = native_wrap.Throw "<this> is not a ThirdParty" native_wrap.empty_isolate.
Proof.
  assert (Hn : native_wrap.natives native_wrap.empty_isolate !! NULL = None)
    by reflexivity.
  split.
  - destruct (plusOne_checks_prototype_only [native_wrap.Forged]
                native_wrap.empty_isolate wrapped_empty Hn)
      as [(h & o & x & [=] & _)|[(_ & _ & E)|(_ & Hne & _)]];
      [exact E | by destruct Hne].
  - destruct (plusOne_checks_prototype_only [native_wrap.Number 1%float]
                native_wrap.empty_isolate wrapped_empty Hn)
      as [(h & o & x & [=] & _)|[([=] & _)|(_ & _ & E)]].
    exact E.
Defined.

(** X15 (independent objects).  A call of [plusOne] on one instance
    does not affect another: what [plusOne] answers for the second is
    the same before and after the call on the first. *)
Theorem plusOne_leaves_other_objects i h o h' o' :
  native_wrap.wrapped i ->
  native_wrap.v8_heap i !! h = Some o ->
  native_wrap.v8_heap i !! h' = Some o' ->
  h' ≠ h ->
  ∃ r i1 r' i2 i2',
    native_wrap.PlusOne [native_wrap.ObjectRef h] i = native_wrap.Return r i1 ∧
    native_wrap.PlusOne [native_wrap.ObjectRef h'] i
    = native_wrap.Return r' i2 ∧
    native_wrap.PlusOne [native_wrap.ObjectRef h'] i1
    = native_wrap.Return r' i2' ∧
    native_wrap.v8_heap i1 = native_wrap.v8_heap i ∧
    native_wrap.trackers i1 = native_wrap.trackers i.
Proof.
  intros Hw Ho Ho' Hne.
  destruct (ThirdParty_PlusOne_instance i h o Hw Ho) as (x & Hx & E).
  destruct (ThirdParty_PlusOne_instance i h' o' Hw Ho') as (x' & Hx' & E').
  rewrite (PlusOne_instance i h o Hw Ho), (PlusOne_instance i h' o' Hw Ho').
  rewrite E, E'.
  match type of E with _ = native_wrap.Return _ ?j => set (i1 := j) end.
  assert (Hw1 : native_wrap.wrapped i1)
    by (apply wrapped_update; [done|by eexists]).
  assert (Ho1 : native_wrap.v8_heap i1 !! h' = Some o') by done.
  destruct (ThirdParty_PlusOne_instance i1 h' o' Hw1 Ho1) as (y & Hy & E1).
  assert (y = x') as ->.
  { unfold i1 in Hy. cbn [native_wrap.natives] in Hy.
    unfold third_party.objects in *.
    rewrite lookup_insert_ne in Hy; [congruence|].
    intros Heq. apply Hne.
    eapply (native_wrap.wrapped_apart _ Hw h' h o' o); eauto. }
  eexists _, i1, _, _, _. split; [done|]. split; [done|].
  rewrite (PlusOne_instance i1 h' o' Hw1 Ho1), E1. done.
Qed.

Lemma plusOne_leaves_other_objects_witness :
  ∃ i0 r i1 r' i2,
    native_wrap.perform_all
      [native_wrap.OpCreateObject 10 20 30 [native_wrap.Number 5%float];
       native_wrap.OpCreateObject 11 21 31 []] native_wrap.empty_isolate
    = Some i0 ∧
    native_wrap.PlusOne [native_wrap.ObjectRef 20] i0
    = native_wrap.Return r i1 ∧
    native_wrap.PlusOne [native_wrap.ObjectRef 21] i1
    = native_wrap.Return r' i2 ∧ r' = 1%float.
Proof.
  set (os := [native_wrap.OpCreateObject 10 20 30 [native_wrap.Number 5%float];
              native_wrap.OpCreateObject 11 21 31 []]).
  assert (Hp : native_wrap.possible_all native_wrap.empty_isolate os)
    by (apply (bool_decide_unpack _); vm_compute; exact I).
  destruct (perform_all_safe os native_wrap.empty_isolate wrapped_empty Hp)
    as (i0 & E0 & Hw0).
  assert (Hi0 : ∃ o o', native_wrap.v8_heap i0 !! 20 = Some o
                        ∧ native_wrap.v8_heap i0 !! 21 = Some o').
  { vm_compute in E0. injection E0 as <-. by eexists _, _. }
  destruct Hi0 as (o & o' & Ho & Ho').
  assert (Hne : (21 : Z) ≠ 20) by lia.
  destruct (plusOne_leaves_other_objects i0 20 o 21 o' Hw0 Ho Ho' Hne)
    as (r & i1 & r' & i2 & i2' & E1 & E2 & E3 & _).
  exists i0, r, i1, r', i2'. split; [exact E0|]. split; [exact E1|].
  split; [exact E3|].
  vm_compute in E0. injection E0 as <-.
  vm_compute in E2. by injection E2 as <- _.
Defined.

(** X16 (collection undoes creation).  What [createObject], called
    with a plain number (none, [undefined] or a number), allocates -
    the third-party object, the V8 object and the tracker - is exactly
    what the collection of the object releases, however often
    [plusOne] was called on it in between: the isolate is as it was
    before the object was created. *)
Theorem collect_undoes_create obj_p handle_p tracker_p args i k :
  native_wrap.possible i
    (native_wrap.OpCreateObject obj_p handle_p tracker_p args) ->
  ∃ i1 rs ik,
    native_wrap.CreateObject obj_p handle_p tracker_p args i
    = native_wrap.Return (native_wrap.ObjectRef handle_p) i1 ∧
    native_wrap.plusOne_calls k (native_wrap.ObjectRef handle_p) i1
    = Some (rs, ik) ∧
    native_wrap.collect handle_p ik = native_wrap.Return tt i.
Proof.
  intros (_ & Hfo & Hfh & Hft & Hplain).
  destruct (CreateObject_plain obj_p handle_p tracker_p args i Hplain)
    as [v ->].
  unfold native_wrap.NewInstance, third_party.create. cbn [snd].
  set (o := native_wrap.Build_v8_object _ _ _).
  set (i1 := native_wrap.Isolate _ _ _).
  destruct (plusOne_calls_isolate k i1 handle_p o {| third_party.value_ := v |})
    as (rs & x' & E).
  { unfold i1. cbn [native_wrap.v8_heap]. apply lookup_insert_eq. }
  { done. }
  { unfold i1, o. cbn [native_wrap.natives native_wrap.internal_field_1].
    unfold third_party.objects in *. apply lookup_insert_eq. }
  eexists i1, rs, _. split; [done|]. split; [exact E|].
  unfold native_wrap.collect, native_wrap.Tracker_finalize, i1, o.
  cbn [native_wrap.natives native_wrap.v8_heap native_wrap.trackers
       native_wrap.internal_field_0 native_wrap.internal_field_1].
  unfold third_party.objects in *.
  rewrite !lookup_insert_eq. cbn [native_wrap.obj_].
  rewrite ?lookup_insert_eq.
  cbn [native_wrap.natives native_wrap.v8_heap native_wrap.trackers
       native_wrap.internal_field_0 native_wrap.internal_field_1].
  unfold third_party.destroy. unfold third_party.objects in *.
  rewrite insert_insert_eq, !delete_insert_id by done.
  by destruct i.
Qed.

Lemma collect_undoes_create_witness :
  ∃ i1 rs ik,
    native_wrap.CreateObject 10 20 30 [] native_wrap.empty_isolate
    = native_wrap.Return (native_wrap.ObjectRef 20) i1 ∧
    native_wrap.plusOne_calls 3 (native_wrap.ObjectRef 20) i1 = Some (rs, ik) ∧
    native_wrap.collect 20 ik = native_wrap.Return tt native_wrap.empty_isolate.
Proof.
  assert (Hp : native_wrap.possible native_wrap.empty_isolate
                 (native_wrap.OpCreateObject 10 20 30 []))
    by (apply (bool_decide_unpack _); vm_compute; exact I).
  exact (collect_undoes_create 10 20 30 [] native_wrap.empty_isolate 3 Hp).
Defined.

(** X17 (method and function agree).  On an instance the method
    [obj.plusOne()], which reads the holder's internal field without a
    check, does exactly what the checked function [plusOne(obj)]
    does. *)
Theorem method_agrees_with_function i h :
  native_wrap.wrapped i -> is_Some (native_wrap.v8_heap i !! h) ->
  native_wrap.Method_PlusOne h i
  = native_wrap.PlusOne [native_wrap.ObjectRef h] i
  ∧ ∃ r i', native_wrap.Method_PlusOne h i = native_wrap.Return r i'.
Proof.
  intros Hw [o Ho]. rewrite (PlusOne_instance i h o Hw Ho).
  unfold native_wrap.Method_PlusOne. rewrite Ho. split; [done|].
  destruct (ThirdParty_PlusOne_instance i h o Hw Ho) as (x & _ & ->).
  by eexists _, _.
Qed.

Lemma method_agrees_with_function_witness :
  ∃ i0,
    native_wrap.perform_all [native_wrap.OpCreateObject 10 20 30 []]
      native_wrap.empty_isolate = Some i0 ∧
    native_wrap.Method_PlusOne 20 i0
    = native_wrap.PlusOne [native_wrap.ObjectRef 20] i0.
Proof.
  set (os := [native_wrap.OpCreateObject 10 20 30 []]).
  assert (Hp : native_wrap.possible_all native_wrap.empty_isolate os)
    by (apply (bool_decide_unpack _); vm_compute; exact I).
  destruct (perform_all_safe os native_wrap.empty_isolate wrapped_empty Hp)
    as (i0 & E0 & Hw0).
  assert (Hi0 : is_Some (native_wrap.v8_heap i0 !! 20)).
  { vm_compute in E0. injection E0 as <-. by eexists. }
  exists i0. split; [exact E0|].
  exact (proj1 (method_agrees_with_function i0 20 Hw0 Hi0)).
Defined.
